(** * Notes application: the persistence and query layer

    A shallow embedding of the two storage services of the application,
    [notesService] (src/unnamed/part_000) and [authService]
    (src/unnamed/part_001), and of the text filter of the notes list screen
    (src/unnamed/part_002, [applyFiltersAndSort]).

    The services are asynchronous TypeScript over the key-value store
    AsyncStorage.  Each [await] is a sequencing point of one logical thread,
    so a service call is modelled as a computation in a state-and-exception
    monad [Js] over a [World]: the contents of the store together with the
    answers the platform is going to give (storage faults, clock readings,
    random draws). *)

From Stdlib Require Import ZArith Ascii String DecimalString DecimalZ Sorted.
From stdpp Require Import base option list strings gmap.

Local Open Scope string_scope.
Local Open Scope Z_scope.
Local Open Scope list_scope.

(** ** The platform: strings, JSON, the store, the clock *)

Module Platform.

(** A JavaScript string is modelled as the sequence of its code units, for
    the strings whose code units are below 256: a unit stands for the code
    point of the same number, U+0000 to U+00FF. *)

(** Truthiness of a string: every string but the empty one. *)
Definition truthy (s : string) : bool :=
  match s with
  | EmptyString => false
  | String _ _ => true
  end.

(** [Number.prototype.toString] on an integral number: the decimal numeral,
    with a leading minus sign below zero. *)
Definition Number_toString (n : Z) : string :=
  NilZero.string_of_int (Z.to_int n).

(** [String.prototype.substr(start, length)] for non-negative arguments. *)
Definition substr (start len : nat) (s : string) : string :=
  String.substring start len s.

(** What a JavaScript [throw] carries.  [Error msg] is [new Error(msg)];
    the other two are what the platform raises: a rejected storage call and
    the [SyntaxError] of [JSON.parse]. *)
Inductive exn : Type :=
  | Error (message : string)
  | StorageError
  | SyntaxError.

(** [JSON.stringify] and [JSON.parse] at a declared TypeScript type [A].
    [JSON_parse] answers [None] where [JSON.parse] throws.  A text that is
    valid JSON of another shape than [A] is excluded by the declared type
    and is not modelled.  The two laws are facts of the platform: parsing
    what was just serialised gives the value back, and the empty text is not
    JSON. *)
Class JSON (A : Type) := {
  JSON_stringify : A → string;
  JSON_parse : string → option A;
  JSON_parse_stringify : ∀ a, JSON_parse (JSON_stringify a) = Some a;
  JSON_parse_empty : JSON_parse EmptyString = None
}.

(** The state of the device as a service call sees it.  [disk] is the
    content of AsyncStorage.  The four streams are the answers still to
    come: whether the next [getItem] (the next [setItem] or [removeItem])
    is rejected, the next reading of [Date.now()], and the next value of
    [Math.random().toString(36)]. *)
Record World := mkWorld {
  disk : gmap string string;
  readFaults : nat → bool;
  writeFaults : nat → bool;
  clock : nat → Z;
  random : nat → string
}.

Definition advance {A} (s : nat → A) : nat → A := λ n, s (S n).
Global Arguments advance {A} s n /.

Inductive outcome (A : Type) : Type :=
  | Return (a : A)
  | Throw (e : exn).
Global Arguments Return {A} a.
Global Arguments Throw {A} e.

(** A computation: from a world to what it returns or throws, and the world
    it leaves behind. *)
Definition Js (A : Type) : Type := World → outcome A * World.

Global Instance Js_ret : MRet Js := λ A a w, (Return a, w).

Global Instance Js_bind : MBind Js := λ A B k m w,
  match m w with
  | (Return a, w') => k a w'
  | (Throw e, w') => (Throw e, w')
  end.

Definition throw {A} (e : exn) : Js A := λ w, (Throw e, w).

(** [try { m } catch (error) { handler }] *)
Definition try_catch {A} (m : Js A) (handler : exn → Js A) : Js A := λ w,
  match m w with
  | (Return a, w') => (Return a, w')
  | (Throw e, w') => handler e w'
  end.

(** [AsyncStorage.getItem(key)]: the stored text, [None] for JavaScript's
    [null] when the key is absent; rejected when the store faults. *)
Definition AsyncStorage_getItem (key : string) : Js (option string) := λ w,
  let w' := mkWorld (disk w) (advance (readFaults w)) (writeFaults w)
                    (clock w) (random w) in
  if readFaults w 0%nat then (Throw StorageError, w')
  else (Return (disk w !! key), w').

(** [AsyncStorage.setItem(key, value)]: overwrites the whole value; a
    rejected call leaves the store as it was. *)
Definition AsyncStorage_setItem (key value : string) : Js unit := λ w,
  if writeFaults w 0%nat
  then (Throw StorageError,
        mkWorld (disk w) (readFaults w) (advance (writeFaults w))
                (clock w) (random w))
  else (Return (),
        mkWorld (<[key := value]> (disk w)) (readFaults w)
                (advance (writeFaults w)) (clock w) (random w)).

(** [AsyncStorage.removeItem(key)] *)
Definition AsyncStorage_removeItem (key : string) : Js unit := λ w,
  if writeFaults w 0%nat
  then (Throw StorageError,
        mkWorld (disk w) (readFaults w) (advance (writeFaults w))
                (clock w) (random w))
  else (Return (),
        mkWorld (delete key (disk w)) (readFaults w)
                (advance (writeFaults w)) (clock w) (random w)).

(** [Date.now()] *)
Definition Date_now : Js Z := λ w,
  (Return (clock w 0%nat),
   mkWorld (disk w) (readFaults w) (writeFaults w) (advance (clock w))
           (random w)).

(** [Math.random().toString(36)] *)
Definition Math_random_toString36 : Js string := λ w,
  (Return (random w 0%nat),
   mkWorld (disk w) (readFaults w) (writeFaults w) (clock w)
           (advance (random w))).

(** [JSON.parse(text)] as a computation: throws on text that is not JSON. *)
Definition JSON_parse_or_throw {A} `{JSON A} (text : string) : Js A :=
  match JSON_parse text with
  | Some a => mret a
  | None => throw SyntaxError
  end.

(** [text ? JSON.parse(text) : []] on the result of [getItem]: [null] and
    the empty text are falsy. *)
Definition parse_or_empty {A} `{JSON (list A)} (text : option string)
  : Js (list A) :=
  match text with
  | Some s => if truthy s then JSON_parse_or_throw s else mret []
  | None => mret []
  end.

(** [Array.prototype.findIndex]; [None] stands for the answer -1. *)
Fixpoint findIndex {A} (p : A → bool) (l : list A) : option nat :=
  match l with
  | [] => None
  | x :: l' => if p x then Some 0%nat else S <$> findIndex p l'
  end.

End Platform.
Export Platform.

(** ** notesService (src/unnamed/part_000) *)

Record Note := mkNote {
  note_id : string;
  note_title : string;
  note_body : string;
  note_imageUri : option string;
  note_createdAt : Z;
  note_updatedAt : Z
}.

(** [Omit<Note, 'id' | 'createdAt' | 'updatedAt'>] *)
Record NoteFields := mkNoteFields {
  fields_title : string;
  fields_body : string;
  fields_imageUri : option string
}.

(** [Partial<Omit<Note, 'id' | 'createdAt'>>]: each key is absent ([None])
    or present.  The key [imageUri] may be present with the value
    [undefined], which is [Some None]. *)
Record NoteUpdates := mkNoteUpdates {
  updates_title : option string;
  updates_body : option string;
  updates_imageUri : option (option string);
  updates_updatedAt : option Z
}.

Definition getNotesKey (username : string) : string := "@notes_" +:+ username.

(** [{ ...note, id, createdAt, updatedAt }] *)
Definition newNoteOf (note : NoteFields) (id : string) (createdAt updatedAt : Z)
  : Note :=
  mkNote id (fields_title note) (fields_body note) (fields_imageUri note)
         createdAt updatedAt.

(** [{ ...old, ...updates, updatedAt }] *)
Definition mergeNote (old : Note) (updates : NoteUpdates) (updatedAt : Z)
  : Note :=
  mkNote (note_id old)
         (default (note_title old) (updates_title updates))
         (default (note_body old) (updates_body updates))
         (default (note_imageUri old) (updates_imageUri updates))
         (note_createdAt old)
         updatedAt.

Section NotesService.
Context `{JSON (list Note)}.

Definition getNotes (username : string) : Js (list Note) :=
  try_catch
    (notesJson ← AsyncStorage_getItem (getNotesKey username);
     parse_or_empty notesJson)
    (λ _, mret []).

Definition getNote (username noteId : string) : Js (option Note) :=
  try_catch
    (notes ← getNotes username;
     mret (List.find (λ note, String.eqb (note_id note) noteId) notes))
    (λ _, mret None).

Definition createNote (username : string) (note : NoteFields) : Js Note :=
  try_catch
    (notes ← getNotes username;
     t_id ← Date_now;
     r ← Math_random_toString36;
     t_created ← Date_now;
     t_updated ← Date_now;
     let newNote :=
       newNoteOf note (Number_toString t_id +:+ substr 2 9 r)
                 t_created t_updated in
     let notes := notes ++ [newNote] in
     AsyncStorage_setItem (getNotesKey username) (JSON_stringify notes);;
     mret newNote)
    (λ _, throw (Error "Failed to create note")).

(** [findIndex] answers an index of [notes] (lemma [findIndex_Some]), so
    [notes[index]] is a note: the inner [None] below is never taken. *)
Definition updateNote (username noteId : string) (updates : NoteUpdates)
  : Js Note :=
  try_catch
    (notes ← getNotes username;
     match findIndex (λ note, String.eqb (note_id note) noteId) notes with
     | None => throw (Error "Note not found")
     | Some index =>
       match notes !! index with
       | None => throw (Error "Note not found")
       | Some old =>
         now ← Date_now;
         let updated := mergeNote old updates now in
         let notes := <[index := updated]> notes in
         AsyncStorage_setItem (getNotesKey username) (JSON_stringify notes);;
         mret updated
       end
     end)
    (λ _, throw (Error "Failed to update note")).

Definition deleteNote (username noteId : string) : Js unit :=
  try_catch
    (notes ← getNotes username;
     let filteredNotes :=
       List.filter (λ note, negb (String.eqb (note_id note) noteId)) notes in
     AsyncStorage_setItem (getNotesKey username) (JSON_stringify filteredNotes))
    (λ _, throw (Error "Failed to delete note")).

End NotesService.

(** ** authService (src/unnamed/part_001) *)

Definition USERS_KEY : string := "@users".
Definition CURRENT_USER_KEY : string := "@current_user".

Record User := mkUser {
  user_username : string;
  user_password : string
}.

(** [{ success: boolean; error?: string }] *)
Record AuthResult := mkAuthResult {
  success : bool;
  error : option string
}.

Section AuthService.
Context `{JSON (list User)}.

Definition signUp (username password : string) : Js AuthResult :=
  try_catch
    (usersJson ← AsyncStorage_getItem USERS_KEY;
     users ← parse_or_empty usersJson;
     if existsb (λ user, String.eqb (user_username user) username) users
     then mret (mkAuthResult false (Some "Username already exists"))
     else
       let users := users ++ [mkUser username password] in
       AsyncStorage_setItem USERS_KEY (JSON_stringify users);;
       mret (mkAuthResult true None))
    (λ _, mret (mkAuthResult false (Some "Failed to sign up"))).

Definition login (username password : string) : Js AuthResult :=
  try_catch
    (usersJson ← AsyncStorage_getItem USERS_KEY;
     users ← parse_or_empty usersJson;
     let user :=
       List.find (λ u, String.eqb (user_username u) username
                       && String.eqb (user_password u) password) users in
     match user with
     | None => mret (mkAuthResult false (Some "Invalid username or password"))
     | Some _ =>
       AsyncStorage_setItem CURRENT_USER_KEY username;;
       mret (mkAuthResult true None)
     end)
    (λ _, mret (mkAuthResult false (Some "Failed to login"))).

Definition getCurrentUser : Js (option string) :=
  try_catch (AsyncStorage_getItem CURRENT_USER_KEY) (λ _, mret None).

Definition getAllUsers : Js (list string) :=
  try_catch
    (usersJson ← AsyncStorage_getItem USERS_KEY;
     users ← parse_or_empty usersJson;
     mret (List.map user_username users))
    (λ _, mret []).

Definition verifyPassword (username password : string) : Js bool :=
  try_catch
    (usersJson ← AsyncStorage_getItem USERS_KEY;
     users ← parse_or_empty usersJson;
     mret (existsb (λ user, String.eqb (user_username user) username
                            && String.eqb (user_password user) password)
                   users))
    (λ _, mret false).

Definition switchUser (username : string) : Js unit :=
  try_catch (AsyncStorage_setItem CURRENT_USER_KEY username)
            (λ _, throw (Error "Failed to switch user")).

Definition logout : Js unit :=
  try_catch (AsyncStorage_removeItem CURRENT_USER_KEY) (λ _, mret ()).

End AuthService.

(** ** The text filter of the notes list (src/unnamed/part_002) *)

Module StringMethods.

(** [String.prototype.trim], [toLowerCase] and [includes], as ECMAScript
    and Unicode define them on the code units U+0000 to U+00FF. *)

(** What [trim] strips, the white space and the line terminators of
    ECMAScript: TAB, LF, VT, FF, CR, SPACE and NO-BREAK SPACE (U+00A0). *)
Definition isWhiteSpace (c : ascii) : bool :=
  match c with
  | "009" | "010" | "011" | "012" | "013" | " " | "160" => true
  | _ => false
  end%char.

Fixpoint trimStart (s : string) : string :=
  match s with
  | EmptyString => EmptyString
  | String c s' => if isWhiteSpace c then trimStart s' else s
  end.

Fixpoint trimEnd (s : string) : string :=
  match s with
  | EmptyString => EmptyString
  | String c s' =>
    match trimEnd s' with
    | EmptyString => if isWhiteSpace c then EmptyString else String c EmptyString
    | t => String c t
    end
  end.

Definition trim (s : string) : string := trimEnd (trimStart s).

(** The lower case of a unit: the capital letters are A to Z (U+0041 to
    U+005A) and U+00C0 to U+00DE without the multiplication sign U+00D7;
    each has its small letter 32 units further.  No other unit below 256
    changes, and no unit changes the length of the text. *)
Definition toLowerCase_unit (c : ascii) : ascii :=
  let n := nat_of_ascii c in
  if ((65 <=? n) && (n <=? 90)
      || (192 <=? n) && (n <=? 222) && negb (n =? 215))%nat
  then ascii_of_nat (n + 32) else c.

Fixpoint toLowerCase (s : string) : string :=
  match s with
  | EmptyString => EmptyString
  | String c s' => String (toLowerCase_unit c) (toLowerCase s')
  end.

(** [s.includes(searchString)]: [searchString] occurs at some position. *)
Fixpoint includes (s searchString : string) : bool :=
  String.prefix searchString s
  || match s with
     | EmptyString => false
     | String _ s' => includes s' searchString
     end.

End StringMethods.
Export StringMethods.

(** [applyFiltersAndSort] first computes [filtered] (lines 66 to 74), then
    sorts a copy of it and hands the copy to the list.  [filterNotes] is the
    first stage. *)
Definition filterNotes (notesToFilter : list Note) (query : string)
  : list Note :=
  if truthy (trim query) then
    let lowerQuery := toLowerCase query in
    List.filter
      (λ note, includes (toLowerCase (note_title note)) lowerQuery
               || includes (toLowerCase (note_body note)) lowerQuery)
      notesToFilter
  else notesToFilter.

Inductive SortOption : Type :=
  | updated_desc
  | updated_asc
  | title_asc
  | title_desc.

Section Sorting.
(** [a.localeCompare(b)] depends on the locale of the device. *)
Variable localeCompare : string → string → Z.

(** The comparator handed to [sort]. *)
Definition compareNotes (sort : SortOption) (a b : Note) : Z :=
  match sort with
  | updated_desc => note_updatedAt b - note_updatedAt a
  | updated_asc => note_updatedAt a - note_updatedAt b
  | title_asc => localeCompare (note_title a) (note_title b)
  | title_desc => localeCompare (note_title b) (note_title a)
  end.

(** [Array.prototype.sort] is stable: a note goes in front of the first
    note it does not follow. *)
Fixpoint insertSorted (cmp : Note → Note → Z) (x : Note) (l : list Note)
  : list Note :=
  match l with
  | [] => [x]
  | y :: l' => if cmp x y <=? 0 then x :: l else y :: insertSorted cmp x l'
  end.

Definition sortNotes (cmp : Note → Note → Z) (l : list Note) : list Note :=
  foldr (insertSorted cmp) [] l.

Definition applyFiltersAndSort (notesToFilter : list Note) (query : string)
    (sort : SortOption) : list Note :=
  let filtered := filterNotes notesToFilter query in
  sortNotes (compareNotes sort) filtered.

End Sorting.

(** ** The screens: the callers of the services

    The handlers of the screens are modelled up to what they do with the
    services: a handler ends by going on with a value ([Done]) or by
    showing an alert ([Alert], with its title and message).  The React
    state a handler sets is part of the value it goes on with. *)

Inductive ui (A : Type) : Type :=
  | Done (a : A)
  | Alert (title message : string).
Global Arguments Done {A} a.
Global Arguments Alert {A} title message.

(** [renderNote] (src/unnamed/part_002, line 119): the text shown under the
    title of a note. *)
Definition preview (item : Note) : string :=
  if (100 <? String.length (note_body item))%nat
  then String.substring 0 100 (note_body item) +:+ "..."
  else note_body item.

(** [handleSelectUser] (src/src/components/AccountSwitchModal.tsx, lines 46
    to 53): the
    selection after a tap on [username]. *)
Definition handleSelectUser (currentUsername username : string) : ui string :=
  if String.eqb username currentUsername
  then Alert "Info" "You are already logged in as this user"
  else Done username.

Section Screens.
Context `{JSON (list Note)} `{JSON (list User)}.
Variable localeCompare : string → string → Z.

(** [loadNotes] of the notes list (src/unnamed/part_002, lines 43 to 51):
    the notes read and the list shown. *)
Definition loadNotes (username searchQuery : string) (sortOption : SortOption)
  : Js (ui (list Note * list Note)) :=
  try_catch
    (userNotes ← getNotes username;
     mret (Done (userNotes,
                 applyFiltersAndSort localeCompare userNotes searchQuery
                                     sortOption)))
    (λ _, mret (Alert "Error" "Failed to load notes")).

(** The [onPress] of the Delete button of [handleDelete] (lines 100 to
    107), once the user has confirmed.  The handler does not wait for
    [loadNotes]; it is the next thing that runs. *)
Definition handleDelete (username searchQuery : string)
    (sortOption : SortOption) (noteId : string)
  : Js (ui (list Note * list Note)) :=
  try_catch
    (deleteNote username noteId;;
     loadNotes username searchQuery sortOption)
    (λ _, mret (Alert "Error" "Failed to delete note")).

(** [loadNote] of the editor (src/src/screens/NoteEditScreen.tsx, lines 40
    to 51): the fields put on the screen, [None] when no note was found and
    the fields stay as they are. *)
Definition loadNote (username noteId : string) : Js (ui (option NoteFields)) :=
  try_catch
    (note ← getNote username noteId;
     mret (Done (match note with
                 | Some note =>
                   Some (mkNoteFields (note_title note) (note_body note)
                                      (note_imageUri note))
                 | None => None
                 end)))
    (λ _, mret (Alert "Error" "Failed to load note")).

(** [handleSave] of the editor (lines 80 to 107).  [noteId] is the route
    parameter, [None] for [null]; [Done ()] is [navigation.goBack()]. *)
Definition handleSave (username : string) (noteId : option string)
    (title body : string) (imageUri : option string) : Js (ui unit) :=
  if negb (truthy (trim title))
  then mret (Alert "Error" "Please enter a title")
  else
    try_catch
      (match noteId with
       | Some noteId =>
         if truthy noteId
         then updateNote username noteId
                (mkNoteUpdates (Some (trim title)) (Some (trim body))
                               (Some imageUri) None);;
              mret (Done ())
         else createNote username
                (mkNoteFields (trim title) (trim body) imageUri);;
              mret (Done ())
       | None =>
         createNote username (mkNoteFields (trim title) (trim body) imageUri);;
         mret (Done ())
       end)
      (λ _, mret (Alert "Error" "Failed to save note")).

(** [loadUsers] of the account switcher (AccountSwitchModal.tsx, lines 41 to
    44). *)
Definition loadUsers : Js (list string) := getAllUsers.

(** [handleSwitchAccount] of the account switcher (lines 55 to 76):
    [Done username] is the call of [onSwitchAccount].  The call of
    [switchUser] is not guarded: what it throws leaves the handler. *)
Definition handleSwitchAccount (selectedUsername : option string)
    (password : string) : Js (ui string) :=
  match selectedUsername with
  | None => mret (Alert "Error" "Please select an account")
  | Some selected =>
    if negb (truthy selected)
    then mret (Alert "Error" "Please select an account")
    else if negb (truthy (trim password))
    then mret (Alert "Error" "Please enter password")
    else
      isValid ← verifyPassword selected password;
      if negb isValid then mret (Alert "Error" "Invalid password")
      else switchUser selected;; mret (Done selected)
  end.

(** [checkAuthStatus] of [App] (the second file of NoteEditScreen.tsx,
    lines 306 to 317): the user the application starts as, [None] when it
    starts on the login screen. *)
Definition checkAuthStatus : Js (option string) :=
  try_catch
    (user ← getCurrentUser;
     mret (match user with
           | Some user => if truthy user then Some user else None
           | None => None
           end))
    (λ _, mret None).

(** [handleLogout] of [App] (lines 329 to 333): the current user after it,
    always [null]. *)
Definition handleLogout : Js (option string) :=
  logout;; mret None.

End Screens.

(** ** A reference JSON codec

    The services are verified against every lawful [JSON] instance.  The
    module below gives one, so that the services can be run.  It writes an
    array of notes or of accounts with the members in the order
    [JSON.stringify] writes them, the strings with the quote and the
    backslash escaped and every other code unit as it is, and it reads that
    text back. *)

Module JsonText.

Definition quote : ascii := "034"%char.
Definition backslash : ascii := "092"%char.

(** A printer writes in front of the text that follows; a reader answers
    the value read and the text left over. *)
Definition printer (A : Type) : Type := A → string → string.
Definition reader (A : Type) : Type := string → option (A * string).

Fixpoint put_chars (s : string) (k : string) : string :=
  match s with
  | EmptyString => k
  | String c s' =>
    if Ascii.eqb c quote || Ascii.eqb c backslash
    then String backslash (String c (put_chars s' k))
    else String c (put_chars s' k)
  end.

Definition put_string : printer string := λ s k,
  String quote (put_chars s (String quote k)).

Fixpoint get_chars (t : string) : option (string * string) :=
  match t with
  | EmptyString => None
  | String c t' =>
    if Ascii.eqb c quote then Some (EmptyString, t')
    else if Ascii.eqb c backslash then
      match t' with
      | EmptyString => None
      | String d t'' =>
        if Ascii.eqb d quote || Ascii.eqb d backslash
        then prod_map (String d) id <$> get_chars t''
        else None
      end
    else prod_map (String c) id <$> get_chars t'
  end.

Definition get_string : reader string := λ t,
  match t with
  | String c t' => if Ascii.eqb c quote then get_chars t' else None
  | EmptyString => None
  end.

Definition put_number : printer Z := λ n k, Number_toString n +:+ k.

Fixpoint get_uint (t : string) : Decimal.uint * string :=
  match t with
  | EmptyString => (Decimal.Nil, t)
  | String c t' =>
    let more (d : Decimal.uint → Decimal.uint) :=
      prod_map d id (get_uint t') in
    match c with
    | "0" => more Decimal.D0 | "1" => more Decimal.D1
    | "2" => more Decimal.D2 | "3" => more Decimal.D3
    | "4" => more Decimal.D4 | "5" => more Decimal.D5
    | "6" => more Decimal.D6 | "7" => more Decimal.D7
    | "8" => more Decimal.D8 | "9" => more Decimal.D9
    | _ => (Decimal.Nil, t)
    end%char
  end.

Definition get_digits (t : string) : option (Decimal.uint * string) :=
  match get_uint t with
  | (Decimal.Nil, _) => None
  | (d, k) => Some (d, k)
  end.

Definition get_number : reader Z := λ t,
  match t with
  | EmptyString => None
  | String c t' =>
    if Ascii.eqb c "-"
    then prod_map (λ d, Z.of_int (Decimal.Neg d)) id <$> get_digits t'
    else prod_map (λ d, Z.of_int (Decimal.Pos d)) id <$> get_digits t
  end.

(** A fixed piece of text: punctuation, or a key with its colon. *)
Fixpoint expect (lit t : string) : option string :=
  match lit, t with
  | EmptyString, _ => Some t
  | String c lit', String d t' => if Ascii.eqb c d then expect lit' t' else None
  | String _ _, EmptyString => None
  end.

Definition key (name : string) : string :=
  String quote (name +:+ String quote ":").

(** The member [imageUri] is left out when the value is [undefined]. *)
Definition put_imageUri : printer (option string) := λ imageUri k,
  match imageUri with
  | Some uri => ("," +:+ key "imageUri") +:+ put_string uri k
  | None => k
  end.

Definition get_imageUri : reader (option string) := λ t,
  match expect ("," +:+ key "imageUri") t with
  | Some t => prod_map Some id <$> get_string t
  | None => Some (None, t)
  end.

Definition put_note : printer Note := λ note k,
  ("{" +:+ key "title") +:+ put_string (note_title note) (
  ("," +:+ key "body") +:+ put_string (note_body note) (
  put_imageUri (note_imageUri note) (
  ("," +:+ key "id") +:+ put_string (note_id note) (
  ("," +:+ key "createdAt") +:+ put_number (note_createdAt note) (
  ("," +:+ key "updatedAt") +:+ put_number (note_updatedAt note) (
  "}" +:+ k)))))).

Definition get_note : reader Note := λ t,
  t ← expect ("{" +:+ key "title") t;
  '(title, t) ← get_string t;
  t ← expect ("," +:+ key "body") t;
  '(body, t) ← get_string t;
  '(imageUri, t) ← get_imageUri t;
  t ← expect ("," +:+ key "id") t;
  '(id, t) ← get_string t;
  t ← expect ("," +:+ key "createdAt") t;
  '(createdAt, t) ← get_number t;
  t ← expect ("," +:+ key "updatedAt") t;
  '(updatedAt, t) ← get_number t;
  t ← expect "}" t;
  Some (mkNote id title body imageUri createdAt updatedAt, t).

Definition put_user : printer User := λ user k,
  ("{" +:+ key "username") +:+ put_string (user_username user) (
  ("," +:+ key "password") +:+ put_string (user_password user) (
  "}" +:+ k)).

Definition get_user : reader User := λ t,
  t ← expect ("{" +:+ key "username") t;
  '(username, t) ← get_string t;
  t ← expect ("," +:+ key "password") t;
  '(password, t) ← get_string t;
  t ← expect "}" t;
  Some (mkUser username password, t).

Section Arrays.
Context {A : Type} (put : printer A) (get : reader A).

Fixpoint put_items (l : list A) (k : string) : string :=
  match l with
  | [] => k
  | [x] => put x k
  | x :: l' => put x (String "," (put_items l' k))
  end.

Definition put_array : printer (list A) := λ l k,
  String "[" (put_items l (String "]" k)).

(** [fuel] bounds the number of elements read. *)
Fixpoint get_items (fuel : nat) (t : string) : option (list A * string) :=
  match fuel with
  | O => None
  | S fuel' =>
    '(x, t) ← get t;
    match t with
    | String "," t' => prod_map (cons x) id <$> get_items fuel' t'
    | String "]" k => Some ([x], k)
    | _ => None
    end
  end.

Definition get_array : reader (list A) := λ t,
  match t with
  | String "[" (String "]" k) => Some ([], k)
  | String "[" t' => get_items (String.length t') t'
  | _ => None
  end.

Definition stringify (l : list A) : string := put_array l EmptyString.

(** The whole text must be one array. *)
Definition parse (t : string) : option (list A) :=
  match get_array t with
  | Some (l, EmptyString) => Some l
  | _ => None
  end.

End Arrays.

(** *** Reading back what was printed *)

Lemma get_chars_put_chars s k :
  get_chars (put_chars s (String quote k)) = Some (s, k).
Proof.
  induction s as [|c s IH]; [done|].
  simpl. destruct (Ascii.eqb c quote) eqn:Hq; simpl.
  - rewrite Hq. simpl. by rewrite IH.
  - destruct (Ascii.eqb c backslash) eqn:Hb; simpl.
    + rewrite Hb, orb_true_r. by rewrite IH.
    + rewrite Hq, Hb. by rewrite IH.
Qed.

Lemma get_string_put_string s k : get_string (put_string s k) = Some (s, k).
Proof. apply get_chars_put_chars. Qed.

Lemma expect_app lit k : expect lit (lit +:+ k) = Some k.
Proof.
  induction lit as [|c lit IH]; [by destruct k|].
  change (String c lit +:+ k) with (String c (lit +:+ k)).
  simpl. by rewrite Ascii.eqb_refl.
Qed.

(** [t] does not begin with a digit. *)
Definition no_digit (t : string) : Prop := get_uint t = (Decimal.Nil, t).

Lemma get_uint_string_of_uint d k :
  no_digit k → get_uint (NilEmpty.string_of_uint d +:+ k) = (d, k).
Proof.
  intros Hk. induction d; simpl;
    [exact Hk | unfold String.app in *; simpl; rewrite IHd; done ..].
Qed.

Lemma get_digits_string_of_uint d k :
  d ≠ Decimal.Nil → no_digit k →
  get_digits (NilEmpty.string_of_uint d +:+ k) = Some (d, k).
Proof.
  intros Hd Hk. unfold get_digits.
  rewrite get_uint_string_of_uint by done. by destruct d.
Qed.

Lemma app_cons c s k : String c s +:+ k = String c (s +:+ k).
Proof. reflexivity. Qed.

Lemma get_number_string_of_int i k :
  match i with Decimal.Pos d | Decimal.Neg d => d ≠ Decimal.Nil end →
  no_digit k →
  get_number (NilZero.string_of_int i +:+ k) = Some (Z.of_int i, k).
Proof.
  intros Hd Hk.
  destruct i as [d|d];
    assert (Hg := get_digits_string_of_uint d k Hd Hk);
    unfold NilZero.string_of_int, NilZero.string_of_uint.
  - destruct d; [done | ..]; simpl NilEmpty.string_of_uint in *;
      rewrite app_cons in *; unfold get_number; simpl Ascii.eqb; cbv iota;
      by rewrite Hg.
  - destruct d; [done | ..]; rewrite app_cons; unfold get_number;
      simpl Ascii.eqb; cbv iota; by rewrite Hg.
Qed.

Lemma get_number_put_number n k :
  no_digit k → get_number (put_number n k) = Some (n, k).
Proof.
  intros Hk. unfold put_number, Number_toString.
  rewrite get_number_string_of_int, DecimalZ.of_to; [done | | done].
  destruct n; simpl; [done | apply DecimalPos.Unsigned.to_uint_nonnil ..].
Qed.
Lemma get_imageUri_put_imageUri imageUri k :
  expect ("," +:+ key "imageUri") k = None →
  get_imageUri (put_imageUri imageUri k) = Some (imageUri, k).
Proof.
  intros Hk. unfold get_imageUri, put_imageUri.
  destruct imageUri as [uri|].
  - rewrite expect_app. by rewrite get_string_put_string.
  - by rewrite Hk.
Qed.

Ltac read_back :=
  repeat first
    [ rewrite expect_app
    | rewrite get_string_put_string
    | rewrite get_imageUri_put_imageUri by reflexivity
    | rewrite get_number_put_number by reflexivity
    | progress cbn [mbind option_bind] ].

Lemma get_note_put_note note k : get_note (put_note note k) = Some (note, k).
Proof.
  destruct note as [id title body imageUri createdAt updatedAt].
  unfold get_note, put_note.
  cbn [note_title note_body note_id note_imageUri note_createdAt
       note_updatedAt].
  by read_back.
Qed.

Lemma get_user_put_user user k : get_user (put_user user k) = Some (user, k).
Proof.
  destruct user as [username password].
  unfold get_user, put_user. cbn [user_username user_password].
  by read_back.
Qed.
(** Printing only adds text in front. *)
Lemma length_app_ge s k : (String.length k ≤ String.length (s +:+ k))%nat.
Proof.
  induction s as [|c s IH]; [done|]. rewrite app_cons. simpl. lia.
Qed.

Lemma length_put_string_ge s k :
  (String.length k ≤ String.length (put_string s k))%nat.
Proof.
  unfold put_string. simpl.
  induction s as [|c s IH]; simpl; [lia|].
  destruct (Ascii.eqb c quote || Ascii.eqb c backslash); simpl; lia.
Qed.

Ltac grows :=
  repeat (etrans; [|first [apply length_app_ge | apply length_put_string_ge]]).

Lemma put_note_open note k :
  ∃ r, put_note note k = String "{" r ∧ (String.length k ≤ String.length r)%nat.
Proof.
  unfold put_note. eexists. split; [apply app_cons|].
  change (String.length (EmptyString +:+ ?t)) with (String.length t).
  grows. unfold put_imageUri, put_number.
  destruct (note_imageUri note); by grows.
Qed.

Lemma put_user_open user k :
  ∃ r, put_user user k = String "{" r ∧ (String.length k ≤ String.length r)%nat.
Proof.
  unfold put_user. eexists. split; [apply app_cons|].
  change (String.length (EmptyString +:+ ?t)) with (String.length t).
  by grows.
Qed.

Section ArrayFacts.
Context {A : Type} (put : printer A) (get : reader A).
Hypothesis get_put : ∀ x k, get (put x k) = Some (x, k).
Hypothesis put_open : ∀ x k,
  ∃ r, put x k = String "{" r ∧ (String.length k ≤ String.length r)%nat.

Lemma length_put_items l k :
  (length l + String.length k ≤ String.length (put_items put l k))%nat.
Proof.
  induction l as [|x l IH]; [done|].
  destruct l as [|y l].
  - simpl. destruct (put_open x k) as (r & -> & Hr). simpl. lia.
  - change (put_items put (x :: y :: l) k)
      with (put x (String "," (put_items put (y :: l) k))).
    destruct (put_open x (String "," (put_items put (y :: l) k)))
      as (r & -> & Hr).
    simpl in *. lia.
Qed.

Lemma get_items_put_items l x k fuel :
  (length l < fuel)%nat →
  get_items get fuel (put_items put (x :: l) (String "]" k)) = Some (x :: l, k).
Proof.
  revert x fuel. induction l as [|y l IH]; intros x [|fuel] Hfuel;
    try (simpl in Hfuel; lia).
  - simpl. by rewrite get_put.
  - change (put_items put (x :: y :: l) (String "]" k))
      with (put x (String "," (put_items put (y :: l) (String "]" k)))).
    cbn [get_items]. rewrite get_put. cbn -[put_items get_items].
    rewrite IH by (simpl in Hfuel; lia). done.
Qed.

Lemma get_array_put_array l k : get_array get (put_array put l k) = Some (l, k).
Proof.
  destruct l as [|x l]; [done|].
  unfold put_array, get_array.
  assert (Hlen := length_put_items (x :: l) (String "]" k)).
  assert (Hget := get_items_put_items l x k).
  destruct l as [|y l].
  - simpl in *. destruct (put_open x (String "]" k)) as (r & Hr & _).
    rewrite Hr in *. apply Hget. simpl. lia.
  - change (put_items put (x :: y :: l) (String "]" k))
      with (put x (String "," (put_items put (y :: l) (String "]" k)))) in *.
    destruct (put_open x (String "," (put_items put (y :: l) (String "]" k))))
      as (r & Hr & _).
    rewrite Hr in *. apply Hget. simpl in *. lia.
Qed.

Lemma parse_stringify l : parse get (stringify put l) = Some l.
Proof. unfold parse, stringify. by rewrite get_array_put_array. Qed.

Lemma parse_empty : parse get EmptyString = None.
Proof. reflexivity. Qed.

End ArrayFacts.

(** The codec of [Note[]] and of [User[]]. *)
#[export] Instance notes_json : JSON (list Note) := {|
  JSON_stringify := stringify put_note;
  JSON_parse := parse get_note;
  JSON_parse_stringify :=
    parse_stringify put_note get_note get_note_put_note put_note_open;
  JSON_parse_empty := parse_empty get_note
|}.

#[export] Instance users_json : JSON (list User) := {|
  JSON_stringify := stringify put_user;
  JSON_parse := parse get_user;
  JSON_parse_stringify :=
    parse_stringify put_user get_user get_user_put_user put_user_open;
  JSON_parse_empty := parse_empty get_user
|}.

End JsonText.

(** * Verification *)

(** ** What the store holds *)

(** The array a healthy read finds under a key: empty when the key is
    absent, when the text is empty and when it is not JSON. *)
Definition decode {A} `{JSON (list A)} (text : option string) : list A :=
  match text with
  | Some s => if truthy s then default [] (JSON_parse s) else []
  | None => []
  end.

Lemma truthy_stringify {A} `{JSON A} (a : A) : truthy (JSON_stringify a) = true.
Proof.
  destruct (JSON_stringify a) eqn:Hs; [|done].
  pose proof (JSON_parse_stringify a) as Hp.
  rewrite Hs, JSON_parse_empty in Hp. done.
Qed.

Lemma decode_stringify {A} `{JSON (list A)} (l : list A) :
  decode (Some (JSON_stringify l)) = l.
Proof.
  unfold decode. by rewrite truthy_stringify, JSON_parse_stringify.
Qed.

Lemma parse_or_empty_eq {A} `{JSON (list A)} (text : option string) w :
  (∃ s, text = Some s ∧ truthy s = true ∧ JSON_parse (A:=list A) s = None
        ∧ parse_or_empty (A:=A) text w = (Throw SyntaxError, w))
  ∨ parse_or_empty text w = (Return (decode text), w).
Proof.
  unfold parse_or_empty, decode, JSON_parse_or_throw.
  destruct text as [s|]; [|by right].
  destruct (truthy s) eqn:Hs; [|by right].
  destruct (JSON_parse s) eqn:Hp; [by right|]. left. by exists s.
Qed.

Lemma getNotesKey_inj u1 u2 : getNotesKey u1 = getNotesKey u2 → u1 = u2.
Proof. unfold getNotesKey. apply (inj _). Qed.

Lemma findIndex_None {A} (p : A → bool) l :
  findIndex p l = None ↔ ∀ x, x ∈ l → p x = false.
Proof.
  induction l as [|y l IH]; simpl.
  - split; [|done]. intros _ x Hx. by apply elem_of_nil in Hx.
  - destruct (p y) eqn:Hy.
    + split; [done|]. intros Hall. rewrite Hall in Hy; [done|]. by left.
    + rewrite fmap_None, IH. split.
      * intros Hall x [->|Hx]%elem_of_cons; auto.
      * intros Hall x Hx. apply Hall. by right.
Qed.

(** The first element that satisfies [p]: nothing before it does. *)
Lemma findIndex_first {A} (p : A → bool) pre x post :
  (∀ y, y ∈ pre → p y = false) → p x = true →
  findIndex p (pre ++ x :: post) = Some (length pre).
Proof.
  intros Hpre Hx. induction pre as [|y pre IH]; simpl.
  - by rewrite Hx.
  - rewrite (Hpre y) by by left. rewrite IH; [done|].
    intros z Hz. apply Hpre. by right.
Qed.

Lemma findIndex_Some {A} (p : A → bool) l i :
  findIndex p l = Some i → ∃ x, l !! i = Some x ∧ p x = true.
Proof.
  revert i. induction l as [|y l IH]; intros i; simpl; [done|].
  destruct (p y) eqn:Hy.
  - intros [= <-]. by exists y.
  - destruct (findIndex p l) as [j|]; [|done]. intros [= <-]. by apply IH.
Qed.

Lemma insert_middle {A} (pre : list A) x y post :
  <[length pre := y]> (pre ++ x :: post) = pre ++ y :: post.
Proof. induction pre as [|z pre IH]; simpl; by f_equal. Qed.

Lemma find_first {A} (p : A → bool) pre x post :
  (∀ y, y ∈ pre → p y = false) → p x = true →
  List.find p (pre ++ x :: post) = Some x.
Proof.
  intros Hpre Hx. induction pre as [|y pre IH]; simpl.
  - by rewrite Hx.
  - rewrite (Hpre y) by by left. apply IH. intros z Hz. apply Hpre. by right.
Qed.

Lemma find_None {A} (p : A → bool) l :
  (∀ x, x ∈ l → p x = false) → List.find p l = None.
Proof.
  induction l as [|y l IH]; intros Hall; simpl; [done|].
  rewrite (Hall y) by by left. apply IH. intros x Hx. apply Hall. by right.
Qed.

(** The world a [getItem] leaves behind. *)
Definition afterRead (w : World) : World :=
  mkWorld (disk w) (advance (readFaults w)) (writeFaults w) (clock w)
          (random w).

Global Arguments afterRead w /.

(** Reads the fields of a world that is written out. *)
Tactic Notation "world" :=
  cbn [afterRead disk readFaults writeFaults clock random advance fst snd].
Tactic Notation "world" "in" hyp(H) :=
  cbn [afterRead disk readFaults writeFaults clock random advance fst snd] in H.

Section NotesFacts.
Context `{!JSON (list Note)}.

(** The collection stored for a user. *)
Definition collection (w : World) (username : string) : list Note :=
  decode (disk w !! getNotesKey username).

(** What [getNotes] answers in [w]: the stored collection, or nothing when
    the read is rejected. *)
Definition listed (w : World) (username : string) : list Note :=
  if readFaults w 0%nat then [] else collection w username.

Lemma getNotes_eq u w : getNotes u w = (Return (listed w u), afterRead w).
Proof.
  unfold getNotes, try_catch, mbind, Js_bind, AsyncStorage_getItem, listed,
    collection.
  destruct (readFaults w 0%nat); [done|].
  cbn zeta.
  match goal with
  | |- context [parse_or_empty ?t ?w0] =>
    destruct (parse_or_empty_eq (A:=Note) t w0)
      as [(s & Hs & Ht & Hp & ->)| ->]; [|done]
  end.
  unfold decode. by rewrite Hs, Ht, Hp.
Qed.

Lemma getNote_eq u noteId w :
  getNote u noteId w
  = (Return (List.find (λ note, String.eqb (note_id note) noteId) (listed w u)),
     afterRead w).
Proof.
  unfold getNote, try_catch, mbind, Js_bind. by rewrite getNotes_eq.
Qed.

(** The note [createNote] builds in [w]. *)
Definition created (w : World) (note : NoteFields) : Note :=
  newNoteOf note
    (Number_toString (clock w 0%nat) +:+ substr 2 9 (random w 0%nat))
    (clock w 1%nat) (clock w 2%nat).

Lemma createNote_eq u note w :
  createNote u note w
  = let w' d := mkWorld d (advance (readFaults w)) (advance (writeFaults w))
                        (advance (advance (advance (clock w))))
                        (advance (random w)) in
    if writeFaults w 0%nat
    then (Throw (Error "Failed to create note"), w' (disk w))
    else (Return (created w note),
          w' (<[getNotesKey u := JSON_stringify (listed w u ++ [created w note])]>
                (disk w))).
Proof.
  unfold createNote, try_catch, mbind, Js_bind. rewrite getNotes_eq.
  unfold Date_now, Math_random_toString36, AsyncStorage_setItem; simpl.
  by destruct (writeFaults w 0%nat).
Qed.

Lemma updateNote_eq u noteId updates w :
  updateNote u noteId updates w
  = let failed := Throw (Error "Failed to update note") in
    match findIndex (λ note, String.eqb (note_id note) noteId) (listed w u) with
    | None => (failed, afterRead w)
    | Some index =>
      match listed w u !! index with
      | None => (failed, afterRead w)
      | Some old =>
        let updated := mergeNote old updates (clock w 0%nat) in
        let w' d := mkWorld d (advance (readFaults w)) (advance (writeFaults w))
                            (advance (clock w)) (random w) in
        if writeFaults w 0%nat then (failed, w' (disk w))
        else (Return updated,
              w' (<[getNotesKey u :=
                      JSON_stringify (<[index := updated]> (listed w u))]>
                    (disk w)))
      end
    end.
Proof.
  unfold updateNote, try_catch, mbind, Js_bind. rewrite getNotes_eq.
  destruct (findIndex _ _) as [index|]; [|done].
  destruct (listed w u !! index) as [old|]; [|done].
  unfold Date_now, AsyncStorage_setItem; simpl.
  by destruct (writeFaults w 0%nat).
Qed.

Lemma deleteNote_eq u noteId w :
  deleteNote u noteId w
  = let w' d := mkWorld d (advance (readFaults w)) (advance (writeFaults w))
                        (clock w) (random w) in
    if writeFaults w 0%nat
    then (Throw (Error "Failed to delete note"), w' (disk w))
    else (Return (),
          w' (<[getNotesKey u :=
                  JSON_stringify
                    (List.filter
                       (λ note, negb (String.eqb (note_id note) noteId))
                       (listed w u))]> (disk w))).
Proof.
  unfold deleteNote, try_catch, mbind, Js_bind. rewrite getNotes_eq.
  unfold AsyncStorage_setItem; simpl.
  by destruct (writeFaults w 0%nat).
Qed.

Lemma collection_written u l d rf wf c r :
  collection (mkWorld (<[getNotesKey u := JSON_stringify l]> d) rf wf c r) u = l.
Proof.
  unfold collection; simpl. by rewrite lookup_insert_eq, decode_stringify.
Qed.

Lemma collection_other u u' text d rf wf c r :
  u ≠ u' →
  collection (mkWorld (<[getNotesKey u := text]> d) rf wf c r) u'
  = decode (d !! getNotesKey u').
Proof.
  intros Hne. unfold collection; simpl. rewrite lookup_insert_ne; [done|].
  intros Heq. by apply Hne, getNotesKey_inj.
Qed.

(** The notes with another id, in the order of the collection. *)
Definition without (noteId : string) (l : list Note) : list Note :=
  filter (λ note, note_id note ≠ noteId) l.

Lemma filter_without noteId l :
  List.filter (λ note, negb (String.eqb (note_id note) noteId)) l
  = without noteId l.
Proof.
  unfold without. induction l as [|x l IH]; [done|]. simpl.
  rewrite filter_cons. destruct (String.eqb_spec (note_id x) noteId) as [Heq|Hne];
    simpl; case_decide; try done; by rewrite IH.
Qed.

Lemma without_absent noteId l note :
  note ∈ without noteId l → String.eqb (note_id note) noteId = false.
Proof.
  unfold without. intros [Hne _]%list_elem_of_filter. by apply String.eqb_neq.
Qed.
Lemma without_first noteId pre first post :
  (∀ note, note ∈ pre → note_id note ≠ noteId) →
  note_id first = noteId →
  without noteId (pre ++ first :: post) = pre ++ without noteId post.
Proof.
  intros Hpre Hfirst. unfold without. rewrite filter_app.
  rewrite filter_cons_False by (intros Hne; by apply Hne).
  f_equal. clear Hfirst. induction pre as [|y pre IH]; [done|].
  rewrite filter_cons_True by (apply Hpre; by left).
  f_equal. apply IH. intros z Hz. apply Hpre. by right.
Qed.
End NotesFacts.

(** ** notesService: the claims *)

Section NotesClaims.
Context `{!JSON (list Note)}.

(** C6.  [getNotes] answers the empty array, and does not throw, when the
    key of the user is absent from the store, when the text stored under it
    is not JSON, and when the read of the store is rejected. *)
Theorem getNotes_degrades_to_empty username w :
  disk w !! getNotesKey username = None
  ∨ (∃ text, disk w !! getNotesKey username = Some text
             ∧ JSON_parse (A:=list Note) text = None)
  ∨ readFaults w 0%nat = true →
  (getNotes username w).1 = Return [].
Proof.
  intros Hcase. rewrite getNotes_eq. simpl. f_equal.
  unfold listed, collection, decode.
  destruct (readFaults w 0%nat); [done|].
  destruct Hcase as [-> | [(text & -> & ->) | ?]];
    [done | by destruct (truthy text) | done].
Qed.

(** [getNotes] returns in every world: no fault reaches its caller. *)
Lemma getNotes_total username w : ∃ notes, (getNotes username w).1 = Return notes.
Proof. rewrite getNotes_eq. by eexists. Qed.

(** C1, as the code has it.  When no stored note has the id, [updateNote]
    throws the error with the message of a failed update: the error with the
    message that the note was not found is thrown inside the [try] block
    and replaced by its [catch].  The caller gets the very same error when
    the note exists and the write is rejected. *)
Theorem updateNote_not_found_masked username noteId updates w w' :
  (∀ note, note ∈ collection w username → note_id note ≠ noteId) →
  (∃ note, note ∈ listed w' username ∧ note_id note = noteId) →
  writeFaults w' 0%nat = true →
  (updateNote username noteId updates w).1
    = Throw (Error "Failed to update note")
  ∧ (updateNote username noteId updates w').1
    = (updateNote username noteId updates w).1.
Proof.
  intros Habsent (note & Hin & Hid) Hfault.
  assert ((updateNote username noteId updates w).1
          = Throw (Error "Failed to update note")) as Hw.
  { rewrite updateNote_eq.
    assert (findIndex (λ note, String.eqb (note_id note) noteId)
              (listed w username) = None) as ->; [|done].
    apply findIndex_None. intros x Hx. apply String.eqb_neq, Habsent.
    unfold listed in Hx. destruct (readFaults w 0%nat); [|done].
    by apply elem_of_nil in Hx. }
  split; [done|]. rewrite Hw, updateNote_eq. cbn zeta.
  destruct (findIndex _ _) as [index|]; [|done].
  destruct (listed w' username !! index); [|done]. by rewrite Hfault.
Qed.

(** C2, amended.  Let [old] be the first stored note with the id.  With a
    healthy read and an accepted write, [updateNote] with only a title
    returns [old] with the new title and with [updatedAt] set to the reading
    of the clock, and stores the collection with that note in the place of
    [old]: id, createdAt, body and imageUri of the note, and every other
    note, are as before.  The new [updatedAt] is the reading of the clock,
    whatever the previous one was. *)
Theorem updateNote_title_only username noteId newTitle w pre old post :
  readFaults w 0%nat = false →
  writeFaults w 0%nat = false →
  collection w username = pre ++ old :: post →
  (∀ note, note ∈ pre → note_id note ≠ noteId) →
  note_id old = noteId →
  let run := updateNote username noteId
               (mkNoteUpdates (Some newTitle) None None None) w in
  let updated := mkNote (note_id old) newTitle (note_body old)
                        (note_imageUri old) (note_createdAt old)
                        (clock w 0%nat) in
  run.1 = Return updated
  ∧ collection run.2 username = pre ++ updated :: post.
Proof.
  intros Hread Hwrite Hcoll Hpre Hold run updated. subst run.
  rewrite updateNote_eq. unfold listed. rewrite Hread, Hcoll.
  rewrite (findIndex_first _ pre old post).
  - rewrite list_lookup_middle by done. cbn zeta. rewrite Hwrite.
    split; [done|]. cbn [snd]. rewrite collection_written.
    by rewrite insert_middle.
  - intros y Hy. by apply String.eqb_neq, Hpre.
  - by apply String.eqb_eq.
Qed.

(** The part of C3 that the code keeps.  When the write is accepted, the
    next read is healthy and no stored note has the generated id,
    [createNote] followed by [getNote] with the id of the returned note
    finds that note, with the title and the body given, and its id is not
    empty. *)
Lemma createNote_getNote username fields w :
  writeFaults w 0%nat = false →
  readFaults w 1%nat = false →
  (∀ note, note ∈ listed w username → note_id note ≠ note_id (created w fields)) →
  let made := createNote username fields w in
  let new := created w fields in
  made.1 = Return new
  ∧ (getNote username (note_id new) made.2).1 = Return (Some new)
  ∧ note_title new = fields_title fields
  ∧ note_body new = fields_body fields
  ∧ note_id new ≠ EmptyString.
Proof.
  intros Hwrite Hread Hfresh made new. subst made new.
  rewrite createNote_eq. cbn zeta. rewrite Hwrite. world.
  split; [done|]. rewrite getNote_eq. world.
  repeat split.
  - f_equal. unfold listed at 1. world.
    rewrite Hread, collection_written.
    rewrite <- (app_nil_r (_ ++ [_])), <- app_assoc. cbn [app].
    apply find_first; [|by apply String.eqb_eq].
    intros y Hy. by apply String.eqb_neq, Hfresh.
  - unfold created, newNoteOf, Number_toString; simpl.
    destruct (clock w 0%nat) as [|p|p]; simpl; [done | |done].
    unfold NilZero.string_of_uint.
    pose proof (DecimalPos.Unsigned.to_uint_nonnil p).
    by destruct (Pos.to_uint p).
Qed.

(** C8.  When the store accepts the writes, [deleteNote] returns for every
    id, stored or not; [getNote] with that id then answers [null]; and a
    second [deleteNote] with the id returns as well.  With a healthy read
    the second call leaves the stored collection as the first one left
    it. *)
Theorem deleteNote_idempotent username noteId w :
  writeFaults w 0%nat = false →
  writeFaults w 1%nat = false →
  let first := deleteNote username noteId w in
  let looked := getNote username noteId first.2 in
  let second := deleteNote username noteId looked.2 in
  first.1 = Return ()
  ∧ looked.1 = Return None
  ∧ second.1 = Return ()
  ∧ (readFaults w 2%nat = false →
     collection second.2 username = collection first.2 username).
Proof.
  intros Hw0 Hw1 first looked second. subst first looked second.
  rewrite (deleteNote_eq username noteId w). cbn zeta. rewrite Hw0. world.
  rewrite getNote_eq. world.
  rewrite deleteNote_eq. world. rewrite Hw1. world.
  rewrite !filter_without.
  repeat split.
  - f_equal. apply find_None. intros x Hx.
    unfold listed in Hx. world in Hx.
    destruct (readFaults w 1%nat).
    + by apply elem_of_nil in Hx.
    + rewrite collection_written in Hx. by apply without_absent in Hx.
  - intros Hr2. rewrite !collection_written.
    unfold listed at 1. world. rewrite Hr2.
    rewrite collection_written.
    unfold without. rewrite list_filter_filter.
    apply list_filter_iff. tauto.
Qed.

(** C10.  Let the stored collection be [pre ++ first :: post], where
    [first] has the id and no note of [pre] has it; [post] may hold more
    notes with the id.  [getNote] answers [first]; [updateNote] replaces
    [first] and leaves [pre] and [post] alone; [deleteNote] keeps exactly the
    notes with another id, in their order. *)
Theorem duplicate_ids username noteId updates w pre first post :
  readFaults w 0%nat = false →
  writeFaults w 0%nat = false →
  collection w username = pre ++ first :: post →
  (∀ note, note ∈ pre → note_id note ≠ noteId) →
  note_id first = noteId →
  (getNote username noteId w).1 = Return (Some first)
  ∧ collection (updateNote username noteId updates w).2 username
    = pre ++ mergeNote first updates (clock w 0%nat) :: post
  ∧ collection (deleteNote username noteId w).2 username
    = pre ++ without noteId post
  ∧ ∀ note, note ∈ collection (deleteNote username noteId w).2 username →
            note_id note ≠ noteId.
Proof.
  intros Hread Hwrite Hcoll Hpre Hfirst.
  assert (∀ y, y ∈ pre → String.eqb (note_id y) noteId = false) as Hpre'
    by (intros y Hy; by apply String.eqb_neq, Hpre).
  assert (String.eqb (note_id first) noteId = true) as Hfirst'
    by by apply String.eqb_eq.
  rewrite getNote_eq, updateNote_eq, deleteNote_eq. unfold listed.
  rewrite Hread, Hcoll. cbn zeta.
  rewrite (findIndex_first _ pre first post) by done.
  rewrite list_lookup_middle by done. rewrite Hwrite. cbn [fst snd].
  rewrite !collection_written, filter_without.
  pose proof (without_first noteId pre first post Hpre Hfirst) as Hdel.
  repeat split.
  - f_equal. by apply find_first.
  - by rewrite insert_middle.
  - done.
  - intros note Hnote.
    by apply String.eqb_neq, without_absent with (l := pre ++ first :: post).
Qed.

End NotesClaims.

(** *** Isolation of the collections *)

(** A call of [notesService]. *)
Inductive NoteCall : Type :=
  | CallGetNotes
  | CallGetNote (noteId : string)
  | CallCreateNote (note : NoteFields)
  | CallUpdateNote (noteId : string) (updates : NoteUpdates)
  | CallDeleteNote (noteId : string).

Section Isolation.
Context `{!JSON (list Note)}.

(** The world a call made for [username] leaves behind. *)
Definition afterCall (username : string) (call : NoteCall) (w : World)
  : World :=
  match call with
  | CallGetNotes => (getNotes username w).2
  | CallGetNote noteId => (getNote username noteId w).2
  | CallCreateNote note => (createNote username note w).2
  | CallUpdateNote noteId updates => (updateNote username noteId updates w).2
  | CallDeleteNote noteId => (deleteNote username noteId w).2
  end.

(** A history: calls made one after the other, each for some user. *)
Definition afterCalls (calls : list (string * NoteCall)) (w : World) : World :=
  foldl (λ w call, afterCall call.1 call.2 w) w calls.

Lemma afterCall_other_key username call w other :
  username ≠ other →
  disk (afterCall username call w) !! getNotesKey other
  = disk w !! getNotesKey other.
Proof.
  intros Hne.
  assert (getNotesKey username ≠ getNotesKey other) as Hkey
    by (intros Heq; by apply Hne, getNotesKey_inj).
  destruct call as [|noteId|note|noteId updates|noteId]; unfold afterCall.
  - by rewrite getNotes_eq.
  - by rewrite getNote_eq.
  - rewrite createNote_eq. cbn zeta.
    destruct (writeFaults w 0%nat); world; [done|].
    by rewrite lookup_insert_ne.
  - rewrite updateNote_eq. cbn zeta.
    destruct (findIndex _ _) as [index|]; [|done].
    destruct (listed w username !! index); [|done].
    destruct (writeFaults w 0%nat); world; [done|].
    by rewrite lookup_insert_ne.
  - rewrite deleteNote_eq. cbn zeta.
    destruct (writeFaults w 0%nat); world; [done|].
    by rewrite lookup_insert_ne.
Qed.

(** C9.  After any history of [notesService] calls made for users other
    than [other], the key of [other] holds what it held before, and
    [getNotes] for [other] answers the collection [other] had before the
    history (or nothing, when its read is rejected): no note created for
    another user is among them. *)
Theorem collections_isolated calls other w :
  (∀ call, call ∈ calls → call.1 ≠ other) →
  let w' := afterCalls calls w in
  disk w' !! getNotesKey other = disk w !! getNotesKey other
  ∧ (getNotes other w').1
    = Return (if readFaults w' 0%nat then [] else collection w other).
Proof.
  intros Hcalls w'.
  assert (disk w' !! getNotesKey other = disk w !! getNotesKey other) as Hkey.
  { subst w'. revert w. induction calls as [|[username call] calls IH];
      intros w; [done|].
    simpl. rewrite IH.
    - apply afterCall_other_key. apply (Hcalls (username, call)). by left.
    - intros c Hc. apply Hcalls. by right. }
  split; [done|]. rewrite getNotes_eq. cbn [fst].
  unfold listed, collection. by rewrite Hkey.
Qed.

End Isolation.

(** ** authService: the claims *)

Section AuthClaims.
Context `{!JSON (list User)}.

(** The stored list of accounts. *)
Definition accounts (w : World) : list User := decode (disk w !! USERS_KEY).

Lemma accounts_parsed w w' :
  accounts w ≠ [] →
  parse_or_empty (disk w !! USERS_KEY) w' = (Return (accounts w), w').
Proof.
  intros Hne.
  destruct (parse_or_empty_eq (A:=User) (disk w !! USERS_KEY) w')
    as [(s & Hs & Ht & Hp & _)|]; [|done].
  exfalso. apply Hne. unfold accounts, decode. by rewrite Hs, Ht, Hp.
Qed.

Lemma existsb_username username (users : list User) :
  username ∈ user_username <$> users →
  existsb (λ user, String.eqb (user_username user) username) users = true.
Proof.
  intros (user & -> & Hin)%list_elem_of_fmap.
  apply existsb_exists. exists user. split.
  - by apply list_elem_of_In.
  - apply String.eqb_refl.
Qed.

Lemma find_credentials_None username password (users : list User) :
  mkUser username password ∉ users →
  List.find (λ u, String.eqb (user_username u) username
                  && String.eqb (user_password u) password) users = None.
Proof.
  intros Hnot. apply find_None. intros [name pass] Hin; simpl.
  apply andb_false_iff.
  destruct (String.eqb_spec name username) as [->|]; [|by left].
  destruct (String.eqb_spec pass password) as [->|]; [|by right].
  done.
Qed.

(** C4.  When the read is healthy and the stored list of accounts has an
    account with exactly this username, [signUp] answers the failure with
    the message that the username exists, for every password; the store is
    left as it was and no write is attempted. *)
Theorem signUp_duplicate username password w :
  readFaults w 0%nat = false →
  username ∈ user_username <$> accounts w →
  let run := signUp username password w in
  run.1 = Return (mkAuthResult false (Some "Username already exists"))
  ∧ disk run.2 = disk w
  ∧ accounts run.2 = accounts w
  ∧ writeFaults run.2 = writeFaults w.
Proof.
  intros Hread Hin run. subst run.
  unfold signUp, try_catch, mbind, Js_bind, AsyncStorage_getItem.
  rewrite Hread. cbn zeta.
  rewrite accounts_parsed.
  - by rewrite existsb_username.
  - intros Hnil. rewrite Hnil in Hin. by apply elem_of_nil in Hin.
Qed.

(** C5.  Against one store with a healthy read: a login with the username
    of an account and a password that no account of that name has, and a
    login with a username that no account has, get the same answer, the
    failure with the one message for invalid credentials, and leave the
    same world behind, with the session pointer untouched. *)
Theorem login_failures_indistinguishable known wrong unknown password w :
  readFaults w 0%nat = false →
  known ∈ user_username <$> accounts w →
  mkUser known wrong ∉ accounts w →
  unknown ∉ user_username <$> accounts w →
  (login known wrong w).1
    = Return (mkAuthResult false (Some "Invalid username or password"))
  ∧ login unknown password w = login known wrong w
  ∧ disk (login known wrong w).2 = disk w.
Proof.
  intros Hread Hknown Hwrong Hunknown.
  assert (accounts w ≠ []) as Hne.
  { intros Hnil. rewrite Hnil in Hknown. by apply elem_of_nil in Hknown. }
  assert (mkUser unknown password ∉ accounts w) as Hnone.
  { intros Hin. apply Hunknown. apply list_elem_of_fmap.
    by exists (mkUser unknown password). }
  unfold login, try_catch, mbind, Js_bind, AsyncStorage_getItem.
  rewrite Hread. cbn zeta. rewrite accounts_parsed by done.
  by rewrite !find_credentials_None.
Qed.

End AuthClaims.

(** ** The filter: the claim *)

(** The query has nothing but white space. *)
Definition blank (query : string) : Prop :=
  Forall (λ c, isWhiteSpace c = true) (list_ascii_of_string query).

(** [needle] is a substring of [s]. *)
Definition occursIn (needle s : string) : Prop :=
  ∃ before after, s = before +:+ needle +:+ after.

(** The lower-cased query is a substring of the lower-cased title or of the
    lower-cased body. *)
Definition matches (query : string) (note : Note) : Prop :=
  occursIn (toLowerCase query) (toLowerCase (note_title note))
  ∨ occursIn (toLowerCase query) (toLowerCase (note_body note)).

Lemma trimStart_empty s : trimStart s = EmptyString ↔ blank s.
Proof.
  unfold blank. induction s as [|c s IH]; simpl.
  - split; [constructor | done].
  - destruct (isWhiteSpace c) eqn:Hc.
    + rewrite IH. split; [by constructor | by inversion 1].
    + split; [done|]. inversion 1; congruence.
Qed.

Lemma trimStart_head s c r :
  trimStart s = String c r → isWhiteSpace c = false.
Proof.
  induction s as [|d s IH]; simpl; [done|].
  destruct (isWhiteSpace d) eqn:Hd; [done|]. by intros [= <- _].
Qed.

Lemma trimEnd_head c r :
  isWhiteSpace c = false → trimEnd (String c r) ≠ EmptyString.
Proof. intros Hc. simpl. rewrite Hc. by destruct (trimEnd r). Qed.

Lemma trim_blank query : truthy (trim query) = false ↔ blank query.
Proof.
  rewrite <- trimStart_empty. unfold trim.
  destruct (trimStart query) as [|c r] eqn:Hs; [done|].
  split; [|done]. intros Hfalse.
  pose proof (trimEnd_head c r (trimStart_head _ _ _ Hs)).
  by destruct (trimEnd (String c r)).
Qed.

Lemma prefix_spec needle s :
  String.prefix needle s = true ↔ ∃ after, s = needle +:+ after.
Proof.
  revert s. induction needle as [|c needle IH]; intros s.
  - split; [by exists s | by destruct s].
  - destruct s as [|d s]; simpl.
    + split; [done | by intros [after Hs]].
    + destruct (ascii_dec c d) as [->|Hne].
      * rewrite IH. split; intros [after Hs]; exists after.
        -- by rewrite Hs.
        -- by injection Hs.
      * split; [done|]. intros [after Hs]. injection Hs. congruence.
Qed.

Lemma includes_spec s needle : includes s needle = true ↔ occursIn needle s.
Proof.
  unfold occursIn. induction s as [|c s IH]; cbn [includes].
  - rewrite orb_false_r, prefix_spec. split.
    + intros [after Hs]. by exists EmptyString, after.
    + intros ([|d before] & after & Hs); [by exists after | done].
  - rewrite orb_true_iff, prefix_spec, IH. split.
    + intros [[after Hs] | (before & after & Hs)].
      * by exists EmptyString, after.
      * exists (String c before), after. by rewrite Hs.
    + intros ([|d before] & after & Hs).
      * left. by exists after.
      * right. exists before, after. by injection Hs.
Qed.

Global Instance matches_dec query note : Decision (matches query note).
Proof.
  refine (cast_if
    (decide (includes (toLowerCase (note_title note)) (toLowerCase query)
             || includes (toLowerCase (note_body note)) (toLowerCase query)
             = true)));
    unfold matches; rewrite <- !includes_spec, <- orb_true_iff; done.
Defined.

(** The second stage only reorders what the first stage kept. *)
Lemma insertSorted_perm cmp x l : insertSorted cmp x l ≡ₚ x :: l.
Proof.
  induction l as [|y l IH]; simpl; [done|].
  destruct (cmp x y <=? 0); [done|]. by rewrite IH, Permutation_swap.
Qed.

Lemma applyFiltersAndSort_perm localeCompare notes query sort :
  applyFiltersAndSort localeCompare notes query sort ≡ₚ filterNotes notes query.
Proof.
  unfold applyFiltersAndSort, sortNotes. cbn zeta.
  induction (filterNotes notes query) as [|x l IH]; simpl; [done|].
  by rewrite insertSorted_perm, IH.
Qed.

(** C7.  With a blank query (empty, or white space only) the filter gives
    back its input.  With any other query it gives the notes that match, in
    the order of the input: those whose lower-cased title or lower-cased body
    has the lower-cased query as a substring; so none when no note
    matches. *)
Theorem filterNotes_spec notes query :
  (blank query → filterNotes notes query = notes)
  ∧ (¬ blank query → filterNotes notes query = filter (matches query) notes)
  ∧ (¬ blank query → (∀ note, note ∈ notes → ¬ matches query note) →
     filterNotes notes query = []).
Proof.
  assert (¬ blank query →
          filterNotes notes query = filter (matches query) notes) as Hsome.
  { intros Hq. unfold filterNotes.
    destruct (truthy (trim query)) eqn:Ht; [|by apply trim_blank in Ht].
    cbn zeta. induction notes as [|note notes IH]; [done|].
    simpl. rewrite filter_cons, IH.
    destruct (decide (matches query note)) as [Hm|Hm];
      unfold matches in Hm; rewrite <- !includes_spec, <- orb_true_iff in Hm.
    - by rewrite Hm.
    - by apply not_true_is_false in Hm as ->. }
  split; [|split; [done|]].
  - intros Hq. unfold filterNotes. by apply trim_blank in Hq as ->.
  - intros Hq Hnone. rewrite Hsome by done. clear Hsome.
    induction notes as [|note notes IH]; [done|].
    rewrite filter_cons_False by (apply Hnone; by left).
    apply IH. intros n Hn. apply Hnone. by right.
Qed.

(** ** notesService: further properties *)

Section NotesMore.
Context `{!JSON (list Note)}.

(** X1.  With a healthy read and an accepted write, [createNote] returns
    the note it built and stores the collection with that note added at the
    end: the notes stored before are kept, in their order. *)
Theorem createNote_appends username fields w :
  readFaults w 0%nat = false →
  writeFaults w 0%nat = false →
  let run := createNote username fields w in
  run.1 = Return (created w fields)
  ∧ collection run.2 username = collection w username ++ [created w fields]
  ∧ note_title (created w fields) = fields_title fields
  ∧ note_body (created w fields) = fields_body fields
  ∧ note_imageUri (created w fields) = fields_imageUri fields.
Proof.
  intros Hread Hwrite run. subst run. rewrite createNote_eq. cbn zeta.
  rewrite Hwrite. world. rewrite collection_written.
  unfold listed. by rewrite Hread.
Qed.

(** X2.  When the write is rejected, each of the three mutators throws its
    own error and the store is left as it was. *)
Theorem rejected_write_changes_nothing username w :
  writeFaults w 0%nat = true →
  (∀ fields,
     (createNote username fields w).1 = Throw (Error "Failed to create note")
     ∧ disk (createNote username fields w).2 = disk w)
  ∧ (∀ noteId updates,
     (updateNote username noteId updates w).1
       = Throw (Error "Failed to update note")
     ∧ disk (updateNote username noteId updates w).2 = disk w)
  ∧ (∀ noteId,
     (deleteNote username noteId w).1 = Throw (Error "Failed to delete note")
     ∧ disk (deleteNote username noteId w).2 = disk w).
Proof.
  intros Hwrite. split; [|split].
  - intros fields. rewrite createNote_eq. cbn zeta. by rewrite Hwrite.
  - intros noteId updates. rewrite updateNote_eq. cbn zeta.
    destruct (findIndex _ _) as [index|]; [|done].
    destruct (listed w username !! index); [|done]. by rewrite Hwrite.
  - intros noteId. rewrite deleteNote_eq. cbn zeta. by rewrite Hwrite.
Qed.

(** X3.  When the read is rejected and the write is accepted, the mutators
    work on an empty array: [createNote] leaves the new note as the only
    stored note, [deleteNote] leaves no stored note, whatever the id, and
    [updateNote] finds nothing and leaves the store as it was. *)
Theorem rejected_read_overwrites username w :
  readFaults w 0%nat = true →
  writeFaults w 0%nat = false →
  (∀ fields,
     collection (createNote username fields w).2 username = [created w fields])
  ∧ (∀ noteId,
     (deleteNote username noteId w).1 = Return ()
     ∧ collection (deleteNote username noteId w).2 username = [])
  ∧ (∀ noteId updates, disk (updateNote username noteId updates w).2 = disk w).
Proof.
  intros Hread Hwrite.
  assert (listed w username = []) as Hlisted by (unfold listed; by rewrite Hread).
  split; [|split].
  - intros fields. rewrite createNote_eq. cbn zeta.
    rewrite Hwrite, Hlisted. world. by rewrite collection_written.
  - intros noteId. rewrite deleteNote_eq. cbn zeta.
    rewrite Hwrite, Hlisted. world. by rewrite collection_written.
  - intros noteId updates. rewrite updateNote_eq. cbn zeta.
    by rewrite Hlisted.
Qed.

Lemma fmap_insert_same {A B} (f : A → B) (l : list A) i x y :
  l !! i = Some x → f y = f x → f <$> <[i := y]> l = f <$> l.
Proof.
  intros Hi Hf. rewrite list_fmap_insert, Hf.
  apply list_insert_id. by rewrite list_lookup_fmap, Hi.
Qed.

(** [updateNote] keeps whatever the merge keeps. *)
Lemma updateNote_keeps {B} (f : Note → B) username noteId updates w :
  (∀ old now, f (mergeNote old updates now) = f old) →
  f <$> collection (updateNote username noteId updates w).2 username
  = f <$> collection w username.
Proof.
  intros Hf. rewrite updateNote_eq. cbn zeta.
  destruct (findIndex _ _) as [index|]; [|done].
  destruct (listed w username !! index) as [old|] eqn:Hold; [|done].
  destruct (writeFaults w 0%nat); [done|]. world.
  rewrite collection_written.
  unfold listed in *. destruct (readFaults w 0%nat); [done|].
  by apply fmap_insert_same with (x := old).
Qed.

(** X4.  In every world, faults included, [updateNote] leaves the ids and
    the creation times of the stored notes as they were, note by note. *)
Theorem updateNote_keeps_identity username noteId updates w :
  (λ note, (note_id note, note_createdAt note))
    <$> collection (updateNote username noteId updates w).2 username
  = (λ note, (note_id note, note_createdAt note)) <$> collection w username.
Proof. by apply updateNote_keeps. Qed.

(** X5.  Unique ids are an invariant of the service.  If the ids of the
    stored notes of a user are pairwise different, they still are after any
    call for that user, in every world, provided that a [createNote] does
    not generate an id that is already stored. *)
Theorem unique_ids_preserved username call w :
  NoDup (note_id <$> collection w username) →
  (∀ fields, call = CallCreateNote fields →
     note_id (created w fields) ∉ note_id <$> collection w username) →
  NoDup (note_id <$> collection (afterCall username call w) username).
Proof.
  intros Hnodup Hfresh.
  assert (NoDup (note_id <$> listed w username)) as Hlisted.
  { unfold listed. destruct (readFaults w 0%nat); [constructor | done]. }
  destruct call as [|noteId|fields|noteId updates|noteId]; unfold afterCall.
  - by rewrite getNotes_eq.
  - by rewrite getNote_eq.
  - rewrite createNote_eq. cbn zeta.
    destruct (writeFaults w 0%nat); [done|]. world.
    rewrite collection_written, fmap_app. apply NoDup_app. split; [done|].
    split; [|apply NoDup_singleton].
    intros x Hx ->%list_elem_of_singleton.
    apply (Hfresh fields eq_refl).
    unfold listed in Hx. destruct (readFaults w 0%nat); [|done].
    by apply elem_of_nil in Hx.
  - by rewrite (updateNote_keeps note_id).
  - rewrite deleteNote_eq. cbn zeta.
    destruct (writeFaults w 0%nat); [done|]. world.
    rewrite collection_written, filter_without.
    eapply sublist_NoDup; [exact Hlisted|].
    unfold without. apply fmap_sublist, sublist_filter.
Qed.

(** X6.  [getNote] never throws.  It answers a note exactly when
    [getNotes] lists a note with the id, and the note it answers is listed
    and has the id. *)
Theorem getNote_answers username noteId w :
  ∃ answer, (getNote username noteId w).1 = Return answer
  ∧ match answer with
    | Some note => note ∈ listed w username ∧ note_id note = noteId
    | None => ∀ note, note ∈ listed w username → note_id note ≠ noteId
    end.
Proof.
  rewrite getNote_eq. eexists. split; [done|].
  destruct (List.find _ _) as [note|] eqn:Hfind.
  - apply find_some in Hfind as [Hin Hid].
    split; [by apply list_elem_of_In | by apply String.eqb_eq].
  - intros note Hin. apply String.eqb_neq.
    by eapply find_none in Hfind; [|apply list_elem_of_In].
Qed.

Lemma find_without noteId other l :
  other ≠ noteId →
  List.find (λ note, String.eqb (note_id note) other) (without noteId l)
  = List.find (λ note, String.eqb (note_id note) other) l.
Proof.
  intros Hne. unfold without. induction l as [|x l IH]; [done|].
  rewrite filter_cons.
  destruct (decide (note_id x ≠ noteId)) as [Hx|Hx]; simpl; rewrite IH.
  - done.
  - apply dec_stable in Hx.
    destruct (String.eqb_spec (note_id x) other); [congruence | done].
Qed.

(** X7.  Deleting one id leaves the lookup of every other id as it was:
    with healthy reads and an accepted write, [getNote] for another id after
    the [deleteNote] answers what it answered before. *)
Theorem deleteNote_keeps_others username noteId other w :
  other ≠ noteId →
  readFaults w 0%nat = false →
  readFaults w 1%nat = false →
  writeFaults w 0%nat = false →
  (getNote username other (deleteNote username noteId w).2).1
  = (getNote username other w).1.
Proof.
  intros Hne Hr0 Hr1 Hw. rewrite deleteNote_eq. cbn zeta. rewrite Hw. world.
  rewrite !getNote_eq. world. f_equal. unfold listed at 1. world.
  rewrite Hr1, collection_written, filter_without.
  by apply find_without.
Qed.

Lemma find_insert_first (p : Note → bool) l i y :
  findIndex p l = Some i → p y = true → List.find p (<[i := y]> l) = Some y.
Proof.
  revert i. induction l as [|x l IH]; intros i; simpl; [done|].
  destruct (p x) eqn:Hx.
  - intros [= <-] Hy. simpl. by rewrite Hy.
  - destruct (findIndex p l) as [j|]; [|done]. intros [= <-] Hy. simpl.
    rewrite Hx. by apply IH.
Qed.

(** X8.  What [updateNote] returns is what [getNote] then finds: with
    healthy reads and an accepted write, when a stored note has the id,
    [updateNote] returns a note with that id and [getNote] with the id
    answers that very note. *)
Theorem updateNote_then_getNote username noteId updates w :
  readFaults w 0%nat = false →
  readFaults w 1%nat = false →
  writeFaults w 0%nat = false →
  (∃ note, note ∈ collection w username ∧ note_id note = noteId) →
  ∃ updated,
    (updateNote username noteId updates w).1 = Return updated
    ∧ note_id updated = noteId
    ∧ note_updatedAt updated = clock w 0%nat
    ∧ (getNote username noteId (updateNote username noteId updates w).2).1
      = Return (Some updated).
Proof.
  intros Hr0 Hr1 Hw (note & Hin & Hid).
  rewrite updateNote_eq. unfold listed. rewrite Hr0. cbn zeta.
  destruct (findIndex _ _) as [index|] eqn:Hindex.
  - destruct (findIndex_Some _ _ _ Hindex) as (old & Hold & Hp).
    rewrite Hold, Hw. world. eexists. split; [done|].
    apply String.eqb_eq in Hp. split; [done|]. split; [done|].
    rewrite getNote_eq. world. f_equal. unfold listed. world.
    rewrite Hr1, collection_written.
    apply find_insert_first; [done|]. by apply String.eqb_eq.
  - exfalso. rewrite findIndex_None in Hindex.
    specialize (Hindex note Hin). by apply String.eqb_neq in Hindex.
Qed.

End NotesMore.
(** ** authService: further properties *)

(** The text under a key is there, is not empty, and is not JSON: the one
    case in which [parse_or_empty] throws. *)
Definition unparsable {A} `{JSON (list A)} (text : option string) : bool :=
  match text with
  | Some s =>
    if truthy s
    then match JSON_parse (A:=list A) s with Some _ => false | None => true end
    else false
  | None => false
  end.

Lemma parse_or_empty_run {A} `{JSON (list A)} (text : option string) w :
  parse_or_empty (A:=A) text w
  = if unparsable (A:=A) text then (Throw SyntaxError, w)
    else (Return (decode text), w).
Proof.
  unfold parse_or_empty, unparsable, decode, JSON_parse_or_throw.
  destruct text as [s|]; [|done]. destruct (truthy s); [|done].
  by destruct (JSON_parse s).
Qed.

Lemma unparsable_decode {A} `{JSON (list A)} (text : option string) :
  unparsable (A:=A) text = true → decode (A:=A) text = [].
Proof.
  unfold unparsable, decode. destruct text as [s|]; [|done].
  destruct (truthy s); [|done]. by destruct (JSON_parse s).
Qed.

Section AuthMore.
Context `{!JSON (list User)}.

(** The world after one read and one write. *)
Definition afterReadWrite (w : World) (d : gmap string string) : World :=
  mkWorld d (advance (readFaults w)) (advance (writeFaults w)) (clock w)
          (random w).

Definition credentials (username password : string) (u : User) : bool :=
  String.eqb (user_username u) username && String.eqb (user_password u) password.

Lemma signUp_eq username password w :
  signUp username password w
  = let failed := Return (mkAuthResult false (Some "Failed to sign up")) in
    if readFaults w 0%nat then (failed, afterRead w)
    else if unparsable (A:=User) (disk w !! USERS_KEY) then (failed, afterRead w)
    else if existsb (λ user, String.eqb (user_username user) username)
                    (accounts w)
    then (Return (mkAuthResult false (Some "Username already exists")),
          afterRead w)
    else if writeFaults w 0%nat then (failed, afterReadWrite w (disk w))
    else (Return (mkAuthResult true None),
          afterReadWrite w
            (<[USERS_KEY := JSON_stringify (accounts w ++ [mkUser username password])]>
               (disk w))).
Proof.
  unfold signUp, try_catch, mbind, Js_bind, AsyncStorage_getItem.
  destruct (readFaults w 0%nat); [done|]. cbn zeta.
  rewrite parse_or_empty_run. fold (accounts w).
  destruct (unparsable _); [done|].
  destruct (existsb _ _); [done|].
  unfold AsyncStorage_setItem; simpl. by destruct (writeFaults w 0%nat).
Qed.

Lemma login_eq username password w :
  login username password w
  = let failed := Return (mkAuthResult false (Some "Failed to login")) in
    if readFaults w 0%nat then (failed, afterRead w)
    else if unparsable (A:=User) (disk w !! USERS_KEY) then (failed, afterRead w)
    else match List.find (credentials username password) (accounts w) with
         | None =>
           (Return (mkAuthResult false (Some "Invalid username or password")),
            afterRead w)
         | Some _ =>
           if writeFaults w 0%nat then (failed, afterReadWrite w (disk w))
           else (Return (mkAuthResult true None),
                 afterReadWrite w (<[CURRENT_USER_KEY := username]> (disk w)))
         end.
Proof.
  unfold login, try_catch, mbind, Js_bind, AsyncStorage_getItem.
  destruct (readFaults w 0%nat); [done|]. cbn zeta.
  rewrite parse_or_empty_run. fold (accounts w).
  destruct (unparsable _); [done|].
  change (λ u, String.eqb (user_username u) username
               && String.eqb (user_password u) password)
    with (credentials username password).
  destruct (List.find _ _); [|done].
  unfold AsyncStorage_setItem; simpl. by destruct (writeFaults w 0%nat).
Qed.

Lemma verifyPassword_eq username password w :
  verifyPassword username password w
  = (Return (if readFaults w 0%nat then false
             else existsb (credentials username password) (accounts w)),
     afterRead w).
Proof.
  unfold verifyPassword, try_catch, mbind, Js_bind, AsyncStorage_getItem.
  destruct (readFaults w 0%nat); [done|]. cbn zeta.
  rewrite parse_or_empty_run. fold (accounts w).
  destruct (unparsable _) eqn:Hu; [|done].
  unfold accounts. by rewrite (unparsable_decode _ Hu).
Qed.

Lemma getAllUsers_eq w :
  getAllUsers w
  = (Return (if readFaults w 0%nat then []
             else List.map user_username (accounts w)),
     afterRead w).
Proof.
  unfold getAllUsers, try_catch, mbind, Js_bind, AsyncStorage_getItem.
  destruct (readFaults w 0%nat); [done|]. cbn zeta.
  rewrite parse_or_empty_run. fold (accounts w).
  destruct (unparsable _) eqn:Hu; [|done].
  unfold accounts. by rewrite (unparsable_decode _ Hu).
Qed.

Lemma getCurrentUser_eq w :
  getCurrentUser w
  = (Return (if readFaults w 0%nat then None else disk w !! CURRENT_USER_KEY),
     afterRead w).
Proof.
  unfold getCurrentUser, try_catch, AsyncStorage_getItem.
  by destruct (readFaults w 0%nat).
Qed.

Lemma switchUser_eq username w :
  switchUser username w
  = let w' d := mkWorld d (readFaults w) (advance (writeFaults w)) (clock w)
                        (random w) in
    if writeFaults w 0%nat
    then (Throw (Error "Failed to switch user"), w' (disk w))
    else (Return (), w' (<[CURRENT_USER_KEY := username]> (disk w))).
Proof.
  unfold switchUser, try_catch, AsyncStorage_setItem.
  by destruct (writeFaults w 0%nat).
Qed.

Lemma logout_eq w :
  logout w
  = let w' d := mkWorld d (readFaults w) (advance (writeFaults w)) (clock w)
                        (random w) in
    if writeFaults w 0%nat then (Return (), w' (disk w))
    else (Return (), w' (delete CURRENT_USER_KEY (disk w))).
Proof.
  unfold logout, try_catch, AsyncStorage_removeItem.
  by destruct (writeFaults w 0%nat).
Qed.

Lemma accounts_written l d rf wf c r :
  accounts (mkWorld (<[USERS_KEY := JSON_stringify l]> d) rf wf c r) = l.
Proof.
  unfold accounts; simpl. by rewrite lookup_insert_eq, decode_stringify.
Qed.

Lemma unparsable_written (l : list User) (d : gmap string string) :
  unparsable (A:=User) (<[USERS_KEY := JSON_stringify l]> d !! USERS_KEY) = false.
Proof.
  rewrite lookup_insert_eq. unfold unparsable.
  by rewrite truthy_stringify, JSON_parse_stringify.
Qed.

Lemma existsb_username_false username (users : list User) :
  username ∉ user_username <$> users →
  existsb (λ user, String.eqb (user_username user) username) users = false.
Proof.
  intros Hnot. apply not_true_is_false. intros (user & Hin & Heq)%existsb_exists.
  apply Hnot, list_elem_of_fmap. exists user.
  split; [by apply String.eqb_eq in Heq | by apply list_elem_of_In].
Qed.

Lemma find_credentials username password (users : list User) :
  match List.find (credentials username password) users with
  | Some _ => mkUser username password ∈ users
  | None => mkUser username password ∉ users
  end.
Proof.
  destruct (List.find _ _) as [[name pass]|] eqn:Hfind.
  - apply find_some in Hfind as [Hin [Hn Hp]%andb_true_iff]. simpl in *.
    apply String.eqb_eq in Hn as <-. apply String.eqb_eq in Hp as <-.
    by apply list_elem_of_In.
  - intros Hin%list_elem_of_In. eapply find_none in Hfind; [|done].
    unfold credentials in Hfind; simpl in Hfind.
    by rewrite !String.eqb_refl in Hfind.
Qed.

Lemma existsb_credentials username password (users : list User) :
  existsb (credentials username password) users = true
  ↔ mkUser username password ∈ users.
Proof.
  rewrite existsb_exists. split.
  - intros ([name pass] & Hin & [Hn Hp]%andb_true_iff). simpl in *.
    apply String.eqb_eq in Hn as <-. apply String.eqb_eq in Hp as <-.
    by apply list_elem_of_In.
  - intros Hin. exists (mkUser username password).
    split; [by apply list_elem_of_In|].
    unfold credentials; simpl. by rewrite !String.eqb_refl.
Qed.

(** X9.  With a healthy read of an account list that is absent or
    readable, a username that no account has and an accepted write,
    [signUp] succeeds and stores the old accounts followed by the new one.
    It does not start a session.  [getAllUsers] then lists the old
    usernames followed by the new one. *)
Theorem signUp_registers username password w :
  readFaults w 0%nat = false →
  unparsable (A:=User) (disk w !! USERS_KEY) = false →
  username ∉ user_username <$> accounts w →
  writeFaults w 0%nat = false →
  let run := signUp username password w in
  run.1 = Return (mkAuthResult true None)
  ∧ accounts run.2 = accounts w ++ [mkUser username password]
  ∧ disk run.2 !! CURRENT_USER_KEY = disk w !! CURRENT_USER_KEY
  ∧ (readFaults w 1%nat = false →
     (getAllUsers run.2).1
     = Return ((user_username <$> accounts w) ++ [username])).
Proof.
  intros Hread Hparse Hnew Hwrite run. subst run.
  rewrite signUp_eq. cbn zeta.
  rewrite Hread, Hparse, existsb_username_false, Hwrite by done.
  unfold afterReadWrite. world.
  split; [done|]. rewrite accounts_written. split; [done|].
  split; [by rewrite lookup_insert_ne|].
  intros Hr1. rewrite getAllUsers_eq. world.
  by rewrite Hr1, accounts_written, map_app.
Qed.

(** X10.  Register, then log in.  After a successful [signUp], [login] with
    the same username and password succeeds, and [getCurrentUser] then
    answers that username (healthy reads, accepted writes). *)
Theorem signUp_then_login username password w :
  readFaults w 0%nat = false →
  readFaults w 1%nat = false →
  readFaults w 2%nat = false →
  writeFaults w 0%nat = false →
  writeFaults w 1%nat = false →
  unparsable (A:=User) (disk w !! USERS_KEY) = false →
  username ∉ user_username <$> accounts w →
  let registered := signUp username password w in
  let logged := login username password registered.2 in
  registered.1 = Return (mkAuthResult true None)
  ∧ logged.1 = Return (mkAuthResult true None)
  ∧ (getCurrentUser logged.2).1 = Return (Some username).
Proof.
  intros Hr0 Hr1 Hr2 Hw0 Hw1 Hparse Hnew registered logged.
  subst registered logged.
  rewrite signUp_eq. cbn zeta.
  rewrite Hr0, Hparse, existsb_username_false, Hw0 by done.
  unfold afterReadWrite. world. split; [done|].
  rewrite login_eq. world. rewrite Hr1, unparsable_written, accounts_written.
  pose proof (find_credentials username password
                (accounts w ++ [mkUser username password])) as Hfind.
  destruct (List.find _ _).
  - rewrite Hw1. unfold afterReadWrite. world. split; [done|].
    rewrite getCurrentUser_eq. world. by rewrite Hr2, lookup_insert_eq.
  - exfalso. apply Hfind. apply elem_of_app. right. by left.
Qed.

(** X11.  Unique usernames are an invariant of [signUp]: if no two stored
    accounts share a username, none do after [signUp], in every world. *)
Theorem unique_usernames_preserved username password w :
  NoDup (user_username <$> accounts w) →
  NoDup (user_username <$> accounts (signUp username password w).2).
Proof.
  intros Hnodup. rewrite signUp_eq. cbn zeta.
  destruct (readFaults w 0%nat); [done|].
  destruct (unparsable _); [done|].
  destruct (existsb _ _) eqn:Hexists; [done|].
  destruct (writeFaults w 0%nat); [done|].
  unfold afterReadWrite. world. rewrite accounts_written, fmap_app.
  apply NoDup_app. split; [done|]. split; [|apply NoDup_singleton].
  intros x Hx ->%list_elem_of_singleton.
  by rewrite existsb_username in Hexists.
Qed.

(** X12.  With a healthy read, [verifyPassword] answers [true] exactly when
    an account with this username and this password is stored, which is
    exactly when [login] succeeds (its write being accepted); and
    [verifyPassword] leaves the store as it was. *)
Theorem verifyPassword_agrees_with_login username password w :
  readFaults w 0%nat = false →
  writeFaults w 0%nat = false →
  ((verifyPassword username password w).1 = Return true
   ↔ mkUser username password ∈ accounts w)
  ∧ ((login username password w).1 = Return (mkAuthResult true None)
     ↔ mkUser username password ∈ accounts w)
  ∧ disk (verifyPassword username password w).2 = disk w.
Proof.
  intros Hread Hwrite. rewrite verifyPassword_eq, login_eq. cbn zeta.
  rewrite Hread. world. split; [|split; [|done]].
  - rewrite <- existsb_credentials. split; [by intros [= ->] | by intros ->].
  - destruct (unparsable _) eqn:Hu.
    + unfold accounts. rewrite (unparsable_decode _ Hu).
      split; [done | by intros ?%elem_of_nil].
    + pose proof (find_credentials username password (accounts w)) as Hfind.
      destruct (List.find _ _); [by rewrite Hwrite | done].
Qed.

(** X13.  [login] never throws, and it writes the session pointer only for
    a stored pair of username and password: in every world it either fails
    with a message and leaves the store as it was, or succeeds, the pair is
    a stored account, and the store differs by the session pointer set to
    the username. *)
Theorem login_writes_session_only_on_match username password w :
  let run := login username password w in
  (∃ message, run.1 = Return (mkAuthResult false (Some message))
              ∧ disk run.2 = disk w)
  ∨ (run.1 = Return (mkAuthResult true None)
     ∧ mkUser username password ∈ accounts w
     ∧ disk run.2 = <[CURRENT_USER_KEY := username]> (disk w)).
Proof.
  intros run. subst run. rewrite login_eq. cbn zeta.
  destruct (readFaults w 0%nat); [left; by eexists|].
  destruct (unparsable _); [left; by eexists|].
  pose proof (find_credentials username password (accounts w)) as Hfind.
  destruct (List.find _ _); [|left; by eexists].
  destruct (writeFaults w 0%nat); [left; by eexists|]. by right.
Qed.

(** X14.  [switchUser] checks nothing: for every username, registered or
    not, an accepted write sets the session pointer to it, and
    [getCurrentUser] then answers it.  A rejected write makes it throw and
    leaves the store as it was. *)
Theorem switchUser_sets_pointer username w :
  (writeFaults w 0%nat = false →
   (switchUser username w).1 = Return ()
   ∧ (readFaults w 0%nat = false →
      (getCurrentUser (switchUser username w).2).1 = Return (Some username)))
  ∧ (writeFaults w 0%nat = true →
     (switchUser username w).1 = Throw (Error "Failed to switch user")
     ∧ disk (switchUser username w).2 = disk w).
Proof.
  rewrite switchUser_eq. cbn zeta. split; intros ->; world; [|done].
  split; [done|]. intros Hread. rewrite getCurrentUser_eq. world.
  by rewrite Hread, lookup_insert_eq.
Qed.

(** X15.  [logout] returns in every world.  When its write is accepted the
    session pointer is gone and [getCurrentUser] answers [null]; when the
    write is rejected the failure is swallowed and the session pointer stays
    as it was. *)
Theorem logout_swallows_failure w :
  (logout w).1 = Return ()
  ∧ (writeFaults w 0%nat = false →
     disk (logout w).2 !! CURRENT_USER_KEY = None
     ∧ (getCurrentUser (logout w).2).1 = Return None)
  ∧ (writeFaults w 0%nat = true → disk (logout w).2 = disk w).
Proof.
  rewrite logout_eq. cbn zeta.
  destruct (writeFaults w 0%nat); world; (split; [done|]);
    split; intros Hw; try done.
  rewrite getCurrentUser_eq. world. rewrite lookup_delete_eq.
  split; [done|]. by destruct (readFaults w 0%nat).
Qed.

End AuthMore.

(** ** The two services keep to their keys *)

(** A call of [authService]. *)
Inductive AuthCall : Type :=
  | CallSignUp (username password : string)
  | CallLogin (username password : string)
  | CallGetCurrentUser
  | CallGetAllUsers
  | CallVerifyPassword (username password : string)
  | CallSwitchUser (username : string)
  | CallLogout.

Section Keys.
Context `{!JSON (list Note)} `{!JSON (list User)}.

Definition afterAuthCall (call : AuthCall) (w : World) : World :=
  match call with
  | CallSignUp username password => (signUp username password w).2
  | CallLogin username password => (login username password w).2
  | CallGetCurrentUser => (getCurrentUser w).2
  | CallGetAllUsers => (getAllUsers w).2
  | CallVerifyPassword username password =>
    (verifyPassword username password w).2
  | CallSwitchUser username => (switchUser username w).2
  | CallLogout => (logout w).2
  end.

Lemma getNotesKey_not_auth username :
  getNotesKey username ≠ USERS_KEY ∧ getNotesKey username ≠ CURRENT_USER_KEY.
Proof. split; discriminate. Qed.

(** X16.  No call of [authService] changes the notes of any user: the key
    of every collection holds after the call what it held before, in every
    world. *)
Theorem auth_calls_leave_notes call username w :
  disk (afterAuthCall call w) !! getNotesKey username
  = disk w !! getNotesKey username.
Proof.
  destruct (getNotesKey_not_auth username) as [Hu Hc].
  destruct call as [u p|u p| | |u p|u|]; unfold afterAuthCall.
  - rewrite signUp_eq. cbn zeta.
    repeat (match goal with |- context [if ?b then _ else _] => destruct b end;
            [done|]).
    unfold afterReadWrite. world. by rewrite lookup_insert_ne.
  - rewrite login_eq. cbn zeta.
    destruct (readFaults w 0%nat); [done|]. destruct (unparsable _); [done|].
    destruct (List.find _ _); [|done].
    destruct (writeFaults w 0%nat); [done|].
    unfold afterReadWrite. world. by rewrite lookup_insert_ne.
  - by rewrite getCurrentUser_eq.
  - by rewrite getAllUsers_eq.
  - by rewrite verifyPassword_eq.
  - rewrite switchUser_eq. cbn zeta.
    destruct (writeFaults w 0%nat); [done|]. world. by rewrite lookup_insert_ne.
  - rewrite logout_eq. cbn zeta.
    destruct (writeFaults w 0%nat); [done|]. world. by rewrite lookup_delete_ne.
Qed.

(** X17.  No call of [notesService], for any username, changes the account
    list or the session pointer. *)
Theorem note_calls_leave_accounts username call w :
  disk (afterCall username call w) !! USERS_KEY = disk w !! USERS_KEY
  ∧ disk (afterCall username call w) !! CURRENT_USER_KEY
    = disk w !! CURRENT_USER_KEY.
Proof.
  destruct (getNotesKey_not_auth username) as [Hu Hc].
  destruct call as [|noteId|note|noteId updates|noteId]; unfold afterCall.
  - by rewrite getNotes_eq.
  - by rewrite getNote_eq.
  - rewrite createNote_eq. cbn zeta.
    destruct (writeFaults w 0%nat); world; [done|].
    by rewrite !lookup_insert_ne.
  - rewrite updateNote_eq. cbn zeta.
    destruct (findIndex _ _) as [index|]; [|done].
    destruct (listed w username !! index); [|done].
    destruct (writeFaults w 0%nat); world; [done|].
    by rewrite !lookup_insert_ne.
  - rewrite deleteNote_eq. cbn zeta.
    destruct (writeFaults w 0%nat); world; [done|].
    by rewrite !lookup_insert_ne.
Qed.

End Keys.
(** ** The list screen: sorting, searching and previews *)

Section SortFacts.
Variable cmp : Note → Note → Z.

(** [a] may stand before [b]. *)
Definition inOrder (a b : Note) : Prop := cmp a b ≤ 0.

Hypothesis cmp_total : ∀ a b, inOrder a b ∨ inOrder b a.
Hypothesis cmp_trans : ∀ a b c, inOrder a b → inOrder b c → inOrder a c.

Lemma insertSorted_sorted x l :
  StronglySorted inOrder l → StronglySorted inOrder (insertSorted cmp x l).
Proof.
  induction 1 as [|y l Hsorted IH Hall]; simpl.
  - repeat constructor.
  - destruct (Z.leb_spec (cmp x y) 0) as [Hxy|Hxy].
    + constructor; [by constructor|]. constructor; [done|].
      eapply Forall_impl; [exact Hall|]. intros z Hz. by eapply cmp_trans.
    + constructor; [done|]. rewrite insertSorted_perm. constructor; [|done].
      destruct (cmp_total x y) as [H|H]; [unfold inOrder in H; lia | done].
Qed.

Lemma sortNotes_sorted l : StronglySorted inOrder (sortNotes cmp l).
Proof.
  induction l as [|x l IH]; simpl; [constructor | by apply insertSorted_sorted].
Qed.

End SortFacts.

Lemma StronglySorted_weaken {A} (R1 R2 : A → A → Prop) l :
  (∀ a b, R1 a b → R2 a b) → StronglySorted R1 l → StronglySorted R2 l.
Proof.
  intros Himpl. induction 1 as [|x l Hsorted IH Hall]; constructor; [done|].
  eapply Forall_impl; [exact Hall | apply Himpl].
Qed.

(** A note goes behind the notes it must follow and in front of the rest:
    among notes with the same key the order of arrival is kept. *)
Lemma insertSorted_stable {K} `{EqDecision K} (key : Note → K) cmp :
  (∀ a b, 0 < cmp a b → key a ≠ key b) →
  ∀ k x l,
    filter (λ note, key note = k) (insertSorted cmp x l)
    = filter (λ note, key note = k) (x :: l).
Proof.
  intros Hcmp k x l. induction l as [|y l IH]; simpl; [done|].
  destruct (Z.leb_spec (cmp x y) 0) as [Hxy|Hxy]; [done|].
  rewrite filter_cons, IH, !filter_cons. apply Hcmp in Hxy.
  repeat case_decide; congruence.
Qed.

Lemma sortNotes_stable {K} `{EqDecision K} (key : Note → K) cmp :
  (∀ a b, 0 < cmp a b → key a ≠ key b) →
  ∀ k l,
    filter (λ note, key note = k) (sortNotes cmp l)
    = filter (λ note, key note = k) l.
Proof.
  intros Hcmp k l. induction l as [|x l IH]; simpl; [done|].
  rewrite insertSorted_stable, !filter_cons, IH by done. done.
Qed.

(** X18.  Sorted by time.  With the option for newest first the list shown
    has the notes the filter kept, each note at least as recently updated
    as every note after it; with the option for oldest first, at most as
    recently. *)
Theorem sorted_by_updatedAt localeCompare notes query :
  let newest := applyFiltersAndSort localeCompare notes query updated_desc in
  let oldest := applyFiltersAndSort localeCompare notes query updated_asc in
  StronglySorted (λ a b, note_updatedAt b ≤ note_updatedAt a) newest
  ∧ newest ≡ₚ filterNotes notes query
  ∧ StronglySorted (λ a b, note_updatedAt a ≤ note_updatedAt b) oldest
  ∧ oldest ≡ₚ filterNotes notes query.
Proof.
  intros newest oldest. subst newest oldest.
  split; [|split; [apply applyFiltersAndSort_perm|
           split; [|apply applyFiltersAndSort_perm]]].
  - eapply StronglySorted_weaken;
    [|apply (sortNotes_sorted (compareNotes localeCompare updated_desc))].
    + unfold inOrder; simpl. intros a b. lia.
    + unfold inOrder; simpl. intros a b. lia.
    + unfold inOrder; simpl. intros a b c. lia.
  - eapply StronglySorted_weaken;
    [|apply (sortNotes_sorted (compareNotes localeCompare updated_asc))].
    + unfold inOrder; simpl. intros a b. lia.
    + unfold inOrder; simpl. intros a b. lia.
    + unfold inOrder; simpl. intros a b c. lia.
Qed.

(** X19.  The sort by time is stable: in either direction, the notes with
    one and the same [updatedAt] are shown in the order the filter left
    them in. *)
Theorem sort_by_updatedAt_stable localeCompare notes query time :
  filter (λ note, note_updatedAt note = time)
         (applyFiltersAndSort localeCompare notes query updated_desc)
  = filter (λ note, note_updatedAt note = time) (filterNotes notes query)
  ∧ filter (λ note, note_updatedAt note = time)
           (applyFiltersAndSort localeCompare notes query updated_asc)
    = filter (λ note, note_updatedAt note = time) (filterNotes notes query).
Proof.
  unfold applyFiltersAndSort. cbn zeta.
  split; apply (sortNotes_stable note_updatedAt); simpl; intros a b; lia.
Qed.

(** X20.  Sorted by title.  When [localeCompare] is a total and transitive
    comparison, the list shown for A to Z has each title in order with
    every title after it, the list shown for Z to A has them in the
    opposite order, and both have the notes the filter kept. *)
Theorem sorted_by_title localeCompare notes query :
  (∀ s t, localeCompare s t ≤ 0 ∨ localeCompare t s ≤ 0) →
  (∀ s t u, localeCompare s t ≤ 0 → localeCompare t u ≤ 0 →
            localeCompare s u ≤ 0) →
  let az := applyFiltersAndSort localeCompare notes query title_asc in
  let za := applyFiltersAndSort localeCompare notes query title_desc in
  StronglySorted (λ a b, localeCompare (note_title a) (note_title b) ≤ 0) az
  ∧ az ≡ₚ filterNotes notes query
  ∧ StronglySorted (λ a b, localeCompare (note_title b) (note_title a) ≤ 0) za
  ∧ za ≡ₚ filterNotes notes query.
Proof.
  intros Htotal Htrans az za. subst az za.
  split; [|split; [apply applyFiltersAndSort_perm|
           split; [|apply applyFiltersAndSort_perm]]].
  - apply (sortNotes_sorted (compareNotes localeCompare title_asc)).
    + intros a b. apply Htotal.
    + intros a b c. apply Htrans.
  - apply (sortNotes_sorted (compareNotes localeCompare title_desc)).
    + intros a b. apply Htotal.
    + intros a b c Hab Hbc. unfold inOrder in *; simpl in *. by eapply Htrans.
Qed.

Lemma toLowerCase_unit_idemp c :
  toLowerCase_unit (toLowerCase_unit c) = toLowerCase_unit c.
Proof. by destruct c as [[] [] [] [] [] [] [] []]. Qed.

Lemma toLowerCase_unit_space c :
  isWhiteSpace (toLowerCase_unit c) = isWhiteSpace c.
Proof. by destruct c as [[] [] [] [] [] [] [] []]. Qed.

Lemma toLowerCase_idemp s : toLowerCase (toLowerCase s) = toLowerCase s.
Proof.
  induction s as [|c s IH]; simpl; [done|].
  by rewrite toLowerCase_unit_idemp, IH.
Qed.

Lemma blank_toLowerCase s : blank (toLowerCase s) ↔ blank s.
Proof.
  unfold blank. induction s as [|c s IH]; simpl; [done|].
  rewrite !Forall_cons, IH, toLowerCase_unit_space. done.
Qed.

Lemma truthy_trim_toLowerCase s :
  truthy (trim (toLowerCase s)) = truthy (trim s).
Proof.
  destruct (truthy (trim s)) eqn:Hs.
  - apply not_false_is_true. intros Hl. apply trim_blank in Hl.
    apply (proj1 (blank_toLowerCase s)) in Hl. apply trim_blank in Hl.
    congruence.
  - apply trim_blank. apply blank_toLowerCase. by apply trim_blank.
Qed.

(** X21.  The search ignores the case of the query: two queries with the
    same lower-case form, such as a word and the same word in capitals,
    filter every list of notes alike. *)
Theorem filterNotes_ignores_query_case notes query1 query2 :
  toLowerCase query1 = toLowerCase query2 →
  filterNotes notes query1 = filterNotes notes query2.
Proof.
  intros Hlower.
  unfold filterNotes.
  rewrite <- (truthy_trim_toLowerCase query1), Hlower.
  by rewrite truthy_trim_toLowerCase.
Qed.

Lemma length_substring_0 n s :
  String.length (String.substring 0 n s) = (n `min` String.length s)%nat.
Proof.
  revert s. induction n as [|n IH]; intros [|c s]; simpl; auto.
Qed.

Lemma length_app s t :
  String.length (s +:+ t) = (String.length s + String.length t)%nat.
Proof. induction s as [|c s IH]; [done|]. rewrite JsonText.app_cons; simpl. lia.
Qed.

Lemma substring_0_prefix n s : ∃ rest, s = String.substring 0 n s +:+ rest.
Proof.
  revert s. induction n as [|n IH]; intros [|c s]; simpl.
  - by exists EmptyString.
  - by exists (String c s).
  - by exists EmptyString.
  - destruct (IH s) as [rest Hrest]. exists rest.
    change (String c (String.substring 0 n s) +:+ rest)
      with (String c (String.substring 0 n s +:+ rest)).
    by rewrite <- Hrest.
Qed.

(** X22.  The preview of a note is its body when the body has at most 100
    code units; otherwise it is the first 100 code units of the body
    followed by three dots, 103 code units in all. *)
Theorem preview_bounded item :
  (String.length (preview item) ≤ 103)%nat
  ∧ ((String.length (note_body item) ≤ 100)%nat → preview item = note_body item)
  ∧ ((100 < String.length (note_body item))%nat →
     String.length (preview item) = 103%nat
     ∧ ∃ start rest, note_body item = start +:+ rest
                     ∧ String.length start = 100%nat
                     ∧ preview item = start +:+ "...").
Proof.
  unfold preview.
  destruct (Nat.ltb_spec 100 (String.length (note_body item))) as [Hlong|Hshort].
  - assert (String.length (String.substring 0 100 (note_body item)) = 100%nat)
      as Hlen by (rewrite length_substring_0; lia).
    split; [|split].
    + rewrite length_app, Hlen. simpl. lia.
    + lia.
    + intros _. split; [rewrite length_app, Hlen; simpl; lia|].
      destruct (substring_0_prefix 100 (note_body item)) as [rest Hrest].
      by exists (String.substring 0 100 (note_body item)), rest.
  - split; [lia|]. split; [done | lia].
Qed.

(** [trim] gives a text that [trim] leaves alone. *)
Lemma trimEnd_idemp s : trimEnd (trimEnd s) = trimEnd s.
Proof.
  induction s as [|c s IH]; [done|]. simpl.
  destruct (trimEnd s) as [|d t] eqn:Ht.
  - destruct (isWhiteSpace c) eqn:Hc; [done|]. simpl. by rewrite Hc.
  - simpl in *. by rewrite IH.
Qed.

Lemma trimEnd_keeps_head c r :
  isWhiteSpace c = false → ∃ t, trimEnd (String c r) = String c t.
Proof.
  intros Hc. simpl. rewrite Hc. destruct (trimEnd r); by eexists.
Qed.

Lemma trim_idemp s : trim (trim s) = trim s.
Proof.
  unfold trim at 1.
  assert (trimStart (trim s) = trim s) as ->; [|apply trimEnd_idemp].
  unfold trim. destruct (trimStart s) as [|c r] eqn:Hs; [done|].
  pose proof (trimStart_head _ _ _ Hs) as Hc.
  destruct (trimEnd_keeps_head c r Hc) as [t ->]. simpl. by rewrite Hc.
Qed.
(** ** The screens: what the handlers do to the store *)

Section ScreenFacts.
Context `{!JSON (list Note)} `{!JSON (list User)}.
Variable localeCompare : string → string → Z.

(** X23.  [handleSave] with a blank title shows the alert that asks for a
    title and calls no service: the world is as it was, whether a note is
    being created or edited. *)
Theorem handleSave_blank_title username noteId title body imageUri w :
  blank title →
  handleSave username noteId title body imageUri w
  = (Return (Alert "Error" "Please enter a title"), w).
Proof.
  intros Hblank%trim_blank. unfold handleSave. by rewrite Hblank.
Qed.

(** X24.  [handleSave] without a note id, a title that is not blank, a
    healthy read and an accepted write: the editor goes back, and the
    collection has one more note at its end, whose title and body are the
    trimmed inputs.  The stored title is not empty and [trim] leaves it
    alone; the image is the one on the screen. *)
Theorem handleSave_creates username title body imageUri w :
  ¬ blank title →
  readFaults w 0%nat = false →
  writeFaults w 0%nat = false →
  let run := handleSave username None title body imageUri w in
  run.1 = Return (Done ())
  ∧ ∃ new,
      collection run.2 username = collection w username ++ [new]
      ∧ note_title new = trim title
      ∧ note_title new ≠ EmptyString
      ∧ trim (note_title new) = note_title new
      ∧ note_body new = trim body
      ∧ note_imageUri new = imageUri.
Proof.
  intros Hblank Hread Hwrite run. subst run.
  assert (truthy (trim title) = true) as Htitle.
  { apply not_false_is_true. by rewrite trim_blank. }
  unfold handleSave. rewrite Htitle. cbn [negb].
  unfold try_catch, mbind, Js_bind, mret, Js_ret.
  rewrite createNote_eq. cbn zeta.
  rewrite Hwrite. world. split; [done|].
  eexists. rewrite collection_written. unfold listed. rewrite Hread.
  split; [done|]. simpl. split; [done|].
  split; [by destruct (trim title) | by rewrite trim_idemp].
Qed.

(** X25.  [handleSave] on the id of a stored note, with a title that is not
    blank, a healthy read and an accepted write: the editor goes back, and
    the first note with the id is stored with the trimmed title and body,
    the image on the screen (none, when the image was removed), the clock
    reading as [updatedAt], and its id and [createdAt] as before.  The other
    notes are as before. *)
Theorem handleSave_edits username noteId title body imageUri w pre old post :
  ¬ blank title →
  noteId ≠ EmptyString →
  readFaults w 0%nat = false →
  writeFaults w 0%nat = false →
  collection w username = pre ++ old :: post →
  (∀ note, note ∈ pre → note_id note ≠ noteId) →
  note_id old = noteId →
  let run := handleSave username (Some noteId) title body imageUri w in
  run.1 = Return (Done ())
  ∧ collection run.2 username
    = pre ++ mkNote noteId (trim title) (trim body) imageUri
                    (note_createdAt old) (clock w 0%nat) :: post.
Proof.
  intros Hblank Hid Hread Hwrite Hcoll Hpre Hold run. subst run.
  assert (truthy (trim title) = true) as Htitle.
  { apply not_false_is_true. by rewrite trim_blank. }
  assert (truthy noteId = true) as Htruthy by by destruct noteId.
  unfold handleSave. rewrite Htitle, Htruthy. cbn [negb].
  unfold try_catch, mbind, Js_bind, mret, Js_ret. rewrite updateNote_eq.
  unfold listed. rewrite Hread, Hcoll.
  rewrite (findIndex_first _ pre old post).
  - rewrite list_lookup_middle by done. cbn zeta. rewrite Hwrite. world.
    split; [done|]. rewrite collection_written, insert_middle.
    unfold mergeNote; simpl. by rewrite Hold.
  - intros y Hy. by apply String.eqb_neq, Hpre.
  - by apply String.eqb_eq.
Qed.

(** X26.  [handleSave] on an id that no listed note has (the note was
    deleted in the meantime, or the read is rejected): the alert for a
    failed save is shown, the store is left as it was, and no note is
    created in the place of the missing one. *)
Theorem handleSave_missing_note username noteId title body imageUri w :
  ¬ blank title →
  noteId ≠ EmptyString →
  (∀ note, note ∈ listed w username → note_id note ≠ noteId) →
  let run := handleSave username (Some noteId) title body imageUri w in
  run.1 = Return (Alert "Error" "Failed to save note")
  ∧ disk run.2 = disk w.
Proof.
  intros Hblank Hid Habsent run. subst run.
  assert (truthy (trim title) = true) as Htitle.
  { apply not_false_is_true. by rewrite trim_blank. }
  assert (truthy noteId = true) as Htruthy by by destruct noteId.
  unfold handleSave. rewrite Htitle, Htruthy. cbn [negb].
  unfold try_catch, mbind, Js_bind, mret, Js_ret. rewrite updateNote_eq.
  assert (findIndex (λ note, String.eqb (note_id note) noteId)
            (listed w username) = None) as ->; [|done].
  apply findIndex_None. intros x Hx. by apply String.eqb_neq, Habsent.
Qed.

(** X27.  The account switcher moves the session pointer only for a stored
    account and its password.  In every world, when [handleSwitchAccount]
    ends in [onSwitchAccount], the selected username and the typed
    password are those of a stored account and the store differs by the
    session pointer set to that username; in every other case, alerts and
    a thrown error included, the store is as it was. *)
Theorem handleSwitchAccount_only_valid selectedUsername password w :
  let run := handleSwitchAccount selectedUsername password w in
  match run.1 with
  | Return (Done username) =>
    selectedUsername = Some username
    ∧ mkUser username password ∈ accounts w
    ∧ disk run.2 = <[CURRENT_USER_KEY := username]> (disk w)
  | _ => disk run.2 = disk w
  end.
Proof.
  intros run. subst run. unfold handleSwitchAccount.
  destruct selectedUsername as [selected|]; [|done].
  destruct (truthy selected); [|done]. cbn [negb].
  destruct (truthy (trim password)); [|done]. cbn [negb].
  unfold mbind, Js_bind, mret, Js_ret. rewrite verifyPassword_eq.
  destruct (readFaults w 0%nat) eqn:Hread; [done|].
  destruct (existsb _ _) eqn:Hvalid; [|done]. cbn [negb].
  apply existsb_credentials in Hvalid.
  rewrite switchUser_eq. cbn zeta. world.
  by destruct (writeFaults w 0%nat).
Qed.

(** X28.  A session survives a restart.  After a successful [login] (a
    stored account, a healthy read, an accepted write), [checkAuthStatus]
    with a healthy read starts the application as that user; with the empty
    username it starts on the login screen, the stored pointer being
    falsy. *)
Theorem login_then_restart username password w :
  mkUser username password ∈ accounts w →
  readFaults w 0%nat = false →
  readFaults w 1%nat = false →
  writeFaults w 0%nat = false →
  (login username password w).1 = Return (mkAuthResult true None)
  ∧ (checkAuthStatus (login username password w).2).1
    = Return (if truthy username then Some username else None).
Proof.
  intros Hin Hr0 Hr1 Hw. rewrite login_eq. cbn zeta. rewrite Hr0.
  destruct (unparsable _) eqn:Hu.
  { unfold accounts in Hin. rewrite (unparsable_decode _ Hu) in Hin.
    by apply elem_of_nil in Hin. }
  pose proof (find_credentials username password (accounts w)) as Hfind.
  destruct (List.find _ _); [|done]. rewrite Hw.
  unfold afterReadWrite. world. split; [done|].
  unfold checkAuthStatus, try_catch, mbind, Js_bind, mret, Js_ret.
  rewrite getCurrentUser_eq. world. by rewrite Hr1, lookup_insert_eq.
Qed.

(** X29.  A logout whose write is rejected is undone by a restart:
    [handleLogout] clears the current user on the screen, but the session
    pointer stays in the store, and [checkAuthStatus] with a healthy read
    starts the application as the user who logged out. *)
Theorem rejected_logout_then_restart username w :
  disk w !! CURRENT_USER_KEY = Some username →
  username ≠ EmptyString →
  writeFaults w 0%nat = true →
  readFaults w 0%nat = false →
  (handleLogout w).1 = Return None
  ∧ (checkAuthStatus (handleLogout w).2).1 = Return (Some username).
Proof.
  intros Hsession Hname Hw Hr.
  unfold handleLogout, mbind, Js_bind, mret, Js_ret.
  rewrite logout_eq. cbn zeta.
  rewrite Hw. world. split; [done|].
  unfold checkAuthStatus, try_catch, mbind, Js_bind, mret, Js_ret.
  rewrite getCurrentUser_eq. world. rewrite Hr, Hsession.
  by destruct username.
Qed.

Lemma filterNotes_subset notes query note :
  note ∈ filterNotes notes query → note ∈ notes.
Proof.
  unfold filterNotes. destruct (truthy (trim query)); [|done].
  cbn zeta. rewrite !list_elem_of_In, filter_In. tauto.
Qed.

(** X30.  Delete from the list.  When the write is accepted, the handler
    reloads the list: none of the notes read and none of the notes shown
    has the deleted id, and the notes shown are those the filter keeps of
    the notes read.  When the write is rejected it shows the alert for a
    failed delete and the store is as it was. *)
Theorem handleDelete_reloads username searchQuery sortOption noteId w :
  (writeFaults w 0%nat = false →
   ∃ notes shown,
     (handleDelete localeCompare username searchQuery sortOption noteId w).1
       = Return (Done (notes, shown))
     ∧ shown ≡ₚ filterNotes notes searchQuery
     ∧ (∀ note, note ∈ notes → note_id note ≠ noteId)
     ∧ (∀ note, note ∈ shown → note_id note ≠ noteId))
  ∧ (writeFaults w 0%nat = true →
     (handleDelete localeCompare username searchQuery sortOption noteId w).1
       = Return (Alert "Error" "Failed to delete note")
     ∧ disk (handleDelete localeCompare username searchQuery sortOption
                          noteId w).2 = disk w).
Proof.
  unfold handleDelete, loadNotes, try_catch, mbind, Js_bind, mret, Js_ret.
  rewrite deleteNote_eq. cbn zeta.
  split; intros ->; [|done]. world. rewrite getNotes_eq. world.
  eexists _, _. split; [done|]. split; [apply applyFiltersAndSort_perm|].
  assert (∀ note,
            note ∈ listed
              (mkWorld
                 (<[getNotesKey username :=
                      JSON_stringify
                        (List.filter
                           (λ note, negb (String.eqb (note_id note) noteId))
                           (listed w username))]> (disk w))
                 (advance (readFaults w)) (advance (writeFaults w))
                 (clock w) (random w)) username →
            note_id note ≠ noteId) as Hnotes.
  { intros note. unfold listed at 1. world.
    destruct (readFaults w 1%nat); [by intros ?%elem_of_nil|].
    rewrite collection_written, filter_without.
    intros Hin. by apply String.eqb_neq, without_absent with (l := listed w username). }
  split; [done|]. intros note Hin. apply Hnotes.
  rewrite applyFiltersAndSort_perm in Hin. by apply filterNotes_subset in Hin.
Qed.

End ScreenFacts.
(** ** Runs on the reference codec *)

Module Runs.
Import JsonText.

(** A device whose store takes every call, with the store [d] and the
    clock [now]. *)
Definition device (d : gmap string string) (now : nat → Z) : World :=
  mkWorld d (λ _, false) (λ _, false) now (λ _, "0.4fzyo82mvyr").

(** The same device with the next write rejected. *)
Definition writeRejected (w : World) : World :=
  mkWorld (disk w) (readFaults w)
          (λ n, match n with O => true | S _ => false end) (clock w) (random w).

Definition shopping : Note :=
  mkNote "n1" "Shopping" "milk" None 1730000000000 1730000000000.
Definition shoppingAgain : Note :=
  mkNote "n1" "Second" "eggs" (Some "file://pic") 1730000000500 1730000000500.
Definition travel : Note :=
  mkNote "n2" "Travel" "tickets" None 1730000000100 1730000000200.

Definition notesOfAlice (notes : list Note) : gmap string string :=
  {[ getNotesKey "alice" := JSON_stringify notes ]}.

Definition registered : gmap string string :=
  {[ USERS_KEY := JSON_stringify [mkUser "alice" "secret"; mkUser "bob" "hunter2"] ]}.

Definition later : nat → Z := λ n, 1730000009000 + Z.of_nat n.

(** The clock stands still: every reading falls in the same millisecond. *)
Definition sameMillisecond : nat → Z := λ _, 1730000000000.

(** The clock ticks between the second and the third reading. *)
Definition ticking : nat → Z :=
  λ n, if (n <? 2)%nat then 1730000000000 else 1730000000001.

Definition titleOnly (title : string) : NoteUpdates :=
  mkNoteUpdates (Some title) None None None.

(** The filter on three queries: blank, matching one title whatever the
    case, matching nothing. *)
Example filterNotes_runs :
  filterNotes [shopping; travel] "   " = [shopping; travel]
  ∧ filterNotes [shopping; travel] "TRAV" = [travel]
  ∧ filterNotes [shopping; travel] "ilk" = [shopping]
  ∧ filterNotes [shopping; travel] "xyz" = [].
Proof. repeat split; reflexivity. Qed.

Example applyFiltersAndSort_runs :
  applyFiltersAndSort (λ a b, if String.ltb a b then -1 else 1)
    [shopping; travel] EmptyString updated_desc
  = [travel; shopping].
Proof. reflexivity. Qed.

(** C6 at a stored text that is not JSON. *)
Lemma getNotes_degrades_to_empty_witness :
  (getNotes "bob" (device {[ getNotesKey "bob" := "not json" ]} later)).1
  = Return [].
Proof.
  apply getNotes_degrades_to_empty. right; left. exists "not json".
  split; reflexivity.
Defined.

(** C1 on an empty store, against a stored note whose write is rejected. *)
Lemma updateNote_not_found_masked_witness :
  (updateNote "alice" "n1" (titleOnly "C") (device ∅ later)).1
    = Throw (Error "Failed to update note")
  ∧ (updateNote "alice" "n1" (titleOnly "C")
       (writeRejected (device (notesOfAlice [shopping]) later))).1
    = (updateNote "alice" "n1" (titleOnly "C") (device ∅ later)).1.
Proof.
  apply updateNote_not_found_masked.
  - intros note Hin. vm_compute in Hin. by apply elem_of_nil in Hin.
  - exists shopping. split; [|reflexivity].
    assert (listed (writeRejected (device (notesOfAlice [shopping]) later))
              "alice" = [shopping]) as -> by (by vm_compute).
    by left.
  - reflexivity.
Defined.

(** C2 as stated fails: a note created and then retitled within one
    millisecond keeps its [updatedAt]. *)
Lemma updateNote_same_millisecond :
  let w0 := device ∅ sameMillisecond in
  let made := createNote "alice" (mkNoteFields "A" "B" None) w0 in
  let old := mkNote "17300000000004fzyo82mv" "A" "B" None
                    1730000000000 1730000000000 in
  let new := mkNote "17300000000004fzyo82mv" "C" "B" None
                    1730000000000 1730000000000 in
  made.1 = Return old
  ∧ collection made.2 "alice" = [old]
  ∧ (updateNote "alice" (note_id old) (titleOnly "C") made.2).1 = Return new
  ∧ ¬ (note_updatedAt old < note_updatedAt new).
Proof. repeat split; [by vm_compute ..|]. by vm_compute. Defined.

(** C2, amended, on a stored note and a later clock. *)
Lemma updateNote_title_only_witness :
  let w := device (notesOfAlice [travel; shopping]) later in
  let run := updateNote "alice" "n1" (titleOnly "Groceries") w in
  let updated := mkNote "n1" "Groceries" "milk" None 1730000000000
                        1730000009000 in
  run.1 = Return updated
  ∧ collection run.2 "alice" = [travel] ++ updated :: [].
Proof.
  apply (updateNote_title_only "alice" "n1" "Groceries"
           (device (notesOfAlice [travel; shopping]) later)
           [travel] shopping []).
  - reflexivity.
  - reflexivity.
  - by vm_compute.
  - intros note ->%list_elem_of_singleton. by vm_compute.
  - reflexivity.
Defined.

(** C3 on the code: the clock ticks between the reading stored as
    [createdAt] and the reading stored as [updatedAt], and the note that
    [getNote] finds has two different time stamps. *)
Theorem createNote_timestamps_differ :
  let w0 := device ∅ ticking in
  let made := createNote "alice" (mkNoteFields "A" "B" None) w0 in
  let new := mkNote "17300000000004fzyo82mv" "A" "B" None
                    1730000000000 1730000000001 in
  made.1 = Return new
  ∧ (getNote "alice" (note_id new) made.2).1 = Return (Some new)
  ∧ note_createdAt new ≠ note_updatedAt new.
Proof. repeat split; by vm_compute. Qed.

(** C4 on a store with two accounts. *)
Lemma signUp_duplicate_witness :
  let run := signUp "alice" "another" (device registered later) in
  run.1 = Return (mkAuthResult false (Some "Username already exists"))
  ∧ disk run.2 = disk (device registered later)
  ∧ accounts run.2 = accounts (device registered later)
  ∧ writeFaults run.2 = writeFaults (device registered later).
Proof.
  apply signUp_duplicate.
  - reflexivity.
  - assert (accounts (device registered later)
            = [mkUser "alice" "secret"; mkUser "bob" "hunter2"]) as ->
      by (by vm_compute).
    by left.
Defined.

(** C5 on the same store. *)
Lemma login_failures_indistinguishable_witness :
  (login "alice" "guess" (device registered later)).1
    = Return (mkAuthResult false (Some "Invalid username or password"))
  ∧ login "mallory" "guess" (device registered later)
    = login "alice" "guess" (device registered later)
  ∧ disk (login "alice" "guess" (device registered later)).2
    = disk (device registered later).
Proof.
  assert (accounts (device registered later)
          = [mkUser "alice" "secret"; mkUser "bob" "hunter2"]) as Hacc
    by (by vm_compute).
  apply login_failures_indistinguishable; [reflexivity | rewrite Hacc ..].
  - by left.
  - intros Hin.
    repeat (apply elem_of_cons in Hin as [Heq|Hin]; [discriminate Heq|]).
    by apply elem_of_nil in Hin.
  - simpl. intros Hin.
    repeat (apply elem_of_cons in Hin as [Heq|Hin]; [discriminate Heq|]).
    by apply elem_of_nil in Hin.
Defined.

(** C8 on a stored note, and then on an id that is not stored. *)
Lemma deleteNote_idempotent_witness :
  let w := device (notesOfAlice [travel; shopping]) later in
  let first := deleteNote "alice" "n1" w in
  let looked := getNote "alice" "n1" first.2 in
  let second := deleteNote "alice" "n1" looked.2 in
  first.1 = Return ()
  ∧ looked.1 = Return None
  ∧ second.1 = Return ()
  ∧ (readFaults w 2%nat = false →
     collection second.2 "alice" = collection first.2 "alice").
Proof. apply deleteNote_idempotent; reflexivity. Defined.

(** C9: what alice does leaves the notes of bob alone. *)
Lemma collections_isolated_witness :
  let calls := [("alice", CallCreateNote (mkNoteFields "A" "B" None));
                ("alice", CallDeleteNote "n1")] in
  let w := device (notesOfAlice [shopping]) later in
  let w' := afterCalls calls w in
  disk w' !! getNotesKey "bob" = disk w !! getNotesKey "bob"
  ∧ (getNotes "bob" w').1
    = Return (if readFaults w' 0%nat then [] else collection w "bob").
Proof.
  apply collections_isolated.
  intros call [->|[->|?%elem_of_nil]%elem_of_cons]%elem_of_cons; done.
Defined.

(** C10 on a collection with the id n1 twice. *)
Lemma duplicate_ids_witness :
  let w := device (notesOfAlice [travel; shopping; shoppingAgain]) later in
  (getNote "alice" "n1" w).1 = Return (Some shopping)
  ∧ collection (updateNote "alice" "n1" (titleOnly "C") w).2 "alice"
    = [travel] ++ mergeNote shopping (titleOnly "C") (clock w 0%nat)
               :: [shoppingAgain]
  ∧ collection (deleteNote "alice" "n1" w).2 "alice"
    = [travel] ++ without "n1" [shoppingAgain]
  ∧ ∀ note, note ∈ collection (deleteNote "alice" "n1" w).2 "alice" →
            note_id note ≠ "n1".
Proof.
  apply duplicate_ids.
  - reflexivity.
  - reflexivity.
  - by vm_compute.
  - intros note ->%list_elem_of_singleton. by vm_compute.
  - reflexivity.
Defined.

End Runs.

(** ** More runs on the reference codec *)

Module MoreRuns.
Import JsonText Runs.

Definition aliceDevice : World := device (notesOfAlice [travel; shopping]) later.
Definition accountsDevice : World := device registered later.

(** The next read is rejected. *)
Definition readRejected (w : World) : World :=
  mkWorld (disk w) (λ n, match n with O => true | S _ => false end)
          (writeFaults w) (clock w) (random w).

(** A comparison of titles by code units. *)
Definition byCodeUnits (s t : string) : Z :=
  match String.compare s t with Lt => -1 | Eq => 0 | Gt => 1 end.

Lemma byCodeUnits_le s t : byCodeUnits s t ≤ 0 ↔ String.le s t.
Proof.
  unfold byCodeUnits, String.le, String.leb.
  destruct (String.compare s t); simpl; split; try done; lia.
Qed.

(** Membership in a list that is written out. *)
Ltac listed_in := repeat first [by left | right].
Ltac listed_out :=
  let Hin := fresh in
  intros Hin;
  repeat (apply elem_of_cons in Hin as [Hin|Hin]; [discriminate Hin|]);
  by apply elem_of_nil in Hin.

Lemma notBlank title : truthy (trim title) = true → ¬ blank title.
Proof. intros Ht Hb%trim_blank. congruence. Qed.

Lemma createNote_appends_witness :
  let run := createNote "alice" (mkNoteFields "A" "B" None) aliceDevice in
  run.1 = Return (created aliceDevice (mkNoteFields "A" "B" None))
  ∧ collection run.2 "alice"
    = collection aliceDevice "alice"
      ++ [created aliceDevice (mkNoteFields "A" "B" None)]
  ∧ note_title (created aliceDevice (mkNoteFields "A" "B" None)) = "A"
  ∧ note_body (created aliceDevice (mkNoteFields "A" "B" None)) = "B"
  ∧ note_imageUri (created aliceDevice (mkNoteFields "A" "B" None)) = None.
Proof.
  apply (createNote_appends "alice" (mkNoteFields "A" "B" None) aliceDevice);
    reflexivity.
Defined.

Lemma rejected_write_changes_nothing_witness :
  (∀ fields,
     (createNote "alice" fields (writeRejected aliceDevice)).1
       = Throw (Error "Failed to create note")
     ∧ disk (createNote "alice" fields (writeRejected aliceDevice)).2
       = disk (writeRejected aliceDevice))
  ∧ (∀ noteId updates,
     (updateNote "alice" noteId updates (writeRejected aliceDevice)).1
       = Throw (Error "Failed to update note")
     ∧ disk (updateNote "alice" noteId updates (writeRejected aliceDevice)).2
       = disk (writeRejected aliceDevice))
  ∧ (∀ noteId,
     (deleteNote "alice" noteId (writeRejected aliceDevice)).1
       = Throw (Error "Failed to delete note")
     ∧ disk (deleteNote "alice" noteId (writeRejected aliceDevice)).2
       = disk (writeRejected aliceDevice)).
Proof.
  apply (rejected_write_changes_nothing "alice" (writeRejected aliceDevice)).
  reflexivity.
Defined.

(** Two notes are stored; a delete of an id that is not there, under a
    rejected read, leaves none. *)
Lemma rejected_read_overwrites_witness :
  collection (readRejected aliceDevice) "alice" = [travel; shopping]
  ∧ (deleteNote "alice" "no such id" (readRejected aliceDevice)).1 = Return ()
  ∧ collection (deleteNote "alice" "no such id" (readRejected aliceDevice)).2
               "alice" = [].
Proof.
  split; [by vm_compute|].
  apply (rejected_read_overwrites "alice" (readRejected aliceDevice));
    reflexivity.
Defined.

Lemma unique_ids_preserved_witness :
  NoDup (note_id <$> collection
           (afterCall "alice" (CallCreateNote (mkNoteFields "A" "B" None))
                      aliceDevice) "alice").
Proof.
  apply unique_ids_preserved.
  - assert (note_id <$> collection aliceDevice "alice" = ["n2"; "n1"]) as ->
      by (by vm_compute).
    repeat (apply NoDup_cons; split; [listed_out|]). apply NoDup_nil_2.
  - intros fields [= <-].
    assert (note_id <$> collection aliceDevice "alice" = ["n2"; "n1"]) as ->
      by (by vm_compute).
    assert (note_id (created aliceDevice (mkNoteFields "A" "B" None))
            = "17300000090004fzyo82mv") as -> by (by vm_compute).
    listed_out.
Defined.

Lemma deleteNote_keeps_others_witness :
  (getNote "alice" "n2" (deleteNote "alice" "n1" aliceDevice).2).1
  = (getNote "alice" "n2" aliceDevice).1.
Proof. apply deleteNote_keeps_others; [discriminate | reflexivity ..]. Defined.

Lemma updateNote_then_getNote_witness :
  ∃ updated,
    (updateNote "alice" "n1" (titleOnly "C") aliceDevice).1 = Return updated
    ∧ note_id updated = "n1"
    ∧ note_updatedAt updated = clock aliceDevice 0%nat
    ∧ (getNote "alice" "n1"
         (updateNote "alice" "n1" (titleOnly "C") aliceDevice).2).1
      = Return (Some updated).
Proof.
  apply updateNote_then_getNote; [reflexivity ..|].
  exists shopping. split; [|reflexivity].
  assert (collection aliceDevice "alice" = [travel; shopping]) as ->
    by (by vm_compute).
  listed_in.
Defined.

Lemma accounts_of_accountsDevice :
  accounts accountsDevice = [mkUser "alice" "secret"; mkUser "bob" "hunter2"].
Proof. by vm_compute. Qed.

Lemma signUp_registers_witness :
  let run := signUp "carol" "pw" accountsDevice in
  run.1 = Return (mkAuthResult true None)
  ∧ accounts run.2 = accounts accountsDevice ++ [mkUser "carol" "pw"]
  ∧ disk run.2 !! CURRENT_USER_KEY = disk accountsDevice !! CURRENT_USER_KEY
  ∧ (readFaults accountsDevice 1%nat = false →
     (getAllUsers run.2).1
     = Return ((user_username <$> accounts accountsDevice) ++ ["carol"])).
Proof.
  apply (signUp_registers "carol" "pw" accountsDevice); [reflexivity ..| |reflexivity].
  rewrite accounts_of_accountsDevice. simpl. listed_out.
Defined.

Lemma signUp_then_login_witness :
  let registered := signUp "carol" "pw" accountsDevice in
  let logged := login "carol" "pw" registered.2 in
  registered.1 = Return (mkAuthResult true None)
  ∧ logged.1 = Return (mkAuthResult true None)
  ∧ (getCurrentUser logged.2).1 = Return (Some "carol").
Proof.
  apply (signUp_then_login "carol" "pw" accountsDevice); [reflexivity ..|].
  rewrite accounts_of_accountsDevice. simpl. listed_out.
Defined.

Lemma unique_usernames_preserved_witness :
  NoDup (user_username <$> accounts (signUp "carol" "pw" accountsDevice).2).
Proof.
  apply unique_usernames_preserved. rewrite accounts_of_accountsDevice. simpl.
  repeat (apply NoDup_cons; split; [listed_out|]). apply NoDup_nil_2.
Defined.

Lemma verifyPassword_agrees_with_login_witness :
  ((verifyPassword "bob" "hunter2" accountsDevice).1 = Return true
   ↔ mkUser "bob" "hunter2" ∈ accounts accountsDevice)
  ∧ ((login "bob" "hunter2" accountsDevice).1 = Return (mkAuthResult true None)
     ↔ mkUser "bob" "hunter2" ∈ accounts accountsDevice)
  ∧ disk (verifyPassword "bob" "hunter2" accountsDevice).2 = disk accountsDevice.
Proof. apply verifyPassword_agrees_with_login; reflexivity. Defined.

Lemma sorted_by_title_witness :
  let az := applyFiltersAndSort byCodeUnits [travel; shopping] EmptyString
                                title_asc in
  let za := applyFiltersAndSort byCodeUnits [travel; shopping] EmptyString
                                title_desc in
  StronglySorted (λ a b, byCodeUnits (note_title a) (note_title b) ≤ 0) az
  ∧ az ≡ₚ filterNotes [travel; shopping] EmptyString
  ∧ StronglySorted (λ a b, byCodeUnits (note_title b) (note_title a) ≤ 0) za
  ∧ za ≡ₚ filterNotes [travel; shopping] EmptyString.
Proof.
  apply sorted_by_title.
  - intros s t. rewrite !byCodeUnits_le. apply total, _.
  - intros s t u. rewrite !byCodeUnits_le. apply transitivity.
Defined.

Lemma filterNotes_ignores_query_case_witness :
  filterNotes [travel; shopping] "MILK" = filterNotes [travel; shopping] "milk".
Proof. apply filterNotes_ignores_query_case. reflexivity. Defined.

Lemma handleSave_blank_title_witness :
  handleSave "alice" None "   " "body" None aliceDevice
  = (Return (Alert "Error" "Please enter a title"), aliceDevice).
Proof. apply handleSave_blank_title. unfold blank. simpl. repeat constructor. Defined.

Lemma handleSave_creates_witness :
  let run := handleSave "alice" None "  Hello " " world  " None aliceDevice in
  run.1 = Return (Done ())
  ∧ ∃ new,
      collection run.2 "alice" = collection aliceDevice "alice" ++ [new]
      ∧ note_title new = trim "  Hello "
      ∧ note_title new ≠ EmptyString
      ∧ trim (note_title new) = note_title new
      ∧ note_body new = trim " world  "
      ∧ note_imageUri new = None.
Proof.
  apply (handleSave_creates "alice" "  Hello " " world  " None aliceDevice);
    [by apply notBlank | reflexivity ..].
Defined.

(** The stored note had an image; saving with the image removed stores it
    without one. *)
Lemma handleSave_edits_witness :
  let w := device (notesOfAlice [travel; shoppingAgain]) later in
  let run := handleSave "alice" (Some "n1") " Third " "tea" None w in
  run.1 = Return (Done ())
  ∧ collection run.2 "alice"
    = [travel] ++ mkNote "n1" (trim " Third ") (trim "tea") None
                         (note_createdAt shoppingAgain) (clock w 0%nat) :: [].
Proof.
  apply (handleSave_edits "alice" "n1" " Third " "tea" None
           (device (notesOfAlice [travel; shoppingAgain]) later)
           [travel] shoppingAgain []).
  - by apply notBlank.
  - discriminate.
  - reflexivity.
  - reflexivity.
  - by vm_compute.
  - intros note ->%list_elem_of_singleton. discriminate.
  - reflexivity.
Defined.

Lemma handleSave_missing_note_witness :
  let run := handleSave "alice" (Some "gone") "Title" "body" None aliceDevice in
  run.1 = Return (Alert "Error" "Failed to save note")
  ∧ disk run.2 = disk aliceDevice.
Proof.
  apply (handleSave_missing_note "alice" "gone" "Title" "body" None aliceDevice).
  - by apply notBlank.
  - discriminate.
  - assert (listed aliceDevice "alice" = [travel; shopping]) as ->
      by (by vm_compute).
    intros note [->|[->|?%elem_of_nil]%elem_of_cons]%elem_of_cons;
      [discriminate..|done].
Defined.

Lemma login_then_restart_witness :
  (login "bob" "hunter2" accountsDevice).1 = Return (mkAuthResult true None)
  ∧ (checkAuthStatus (login "bob" "hunter2" accountsDevice).2).1
    = Return (if truthy "bob" then Some "bob" else None).
Proof.
  apply login_then_restart; [|reflexivity ..].
  rewrite accounts_of_accountsDevice. listed_in.
Defined.

Lemma rejected_logout_then_restart_witness :
  let w := writeRejected (device {[ CURRENT_USER_KEY := "bob" ]} later) in
  (handleLogout w).1 = Return None
  ∧ (checkAuthStatus (handleLogout w).2).1 = Return (Some "bob").
Proof.
  apply (rejected_logout_then_restart "bob"
           (writeRejected (device {[ CURRENT_USER_KEY := "bob" ]} later)));
    [reflexivity | discriminate | reflexivity ..].
Defined.

(** A username that no account has becomes the current user. *)
Lemma switchUser_sets_pointer_witness :
  (switchUser "ghost" accountsDevice).1 = Return ()
  ∧ (getCurrentUser (switchUser "ghost" accountsDevice).2).1
    = Return (Some "ghost").
Proof.
  destruct (switchUser_sets_pointer "ghost" accountsDevice) as [Hset _].
  destruct (Hset eq_refl) as [Hdone Hread]. split; [exact Hdone|].
  exact (Hread eq_refl).
Defined.

Lemma logout_swallows_failure_witness :
  let w := writeRejected (device {[ CURRENT_USER_KEY := "bob" ]} later) in
  (logout w).1 = Return () ∧ disk (logout w).2 = disk w.
Proof.
  destruct (logout_swallows_failure
              (writeRejected (device {[ CURRENT_USER_KEY := "bob" ]} later)))
    as (Hdone & _ & Hkept).
  split; [exact Hdone | exact (Hkept eq_refl)].
Defined.

Lemma handleDelete_reloads_witness :
  ∃ notes shown,
    (handleDelete byCodeUnits "alice" "t" updated_desc "n1" aliceDevice).1
      = Return (Done (notes, shown))
    ∧ shown ≡ₚ filterNotes notes "t"
    ∧ (∀ note, note ∈ notes → note_id note ≠ "n1")
    ∧ (∀ note, note ∈ shown → note_id note ≠ "n1").
Proof.
  destruct (handleDelete_reloads byCodeUnits "alice" "t" updated_desc "n1"
              aliceDevice) as [Hok _].
  exact (Hok eq_refl).
Defined.

(** White space and letters beyond ASCII.  The no-break space U+00A0 is
    white space: a title or a query made of it is blank.  The capital
    E with acute accent U+00C9 has the small letter U+00E9. *)
Definition nbsp : string := String "160" EmptyString.
Definition ECOLE : string := String "201" "COLE".
Definition ecole : string := String "233" "cole".

Example trim_nbsp : trim (nbsp +:+ " a b " +:+ nbsp) = "a b" ∧ trim nbsp = EmptyString.
Proof. split; reflexivity. Qed.

Example toLowerCase_accented :
  toLowerCase ECOLE = ecole ∧ toLowerCase (String "215" "X") = String "215" "x".
Proof. split; reflexivity. Qed.

Example filterNotes_nbsp_query :
  filterNotes [shopping; travel] (nbsp +:+ nbsp) = [shopping; travel].
Proof. reflexivity. Qed.

Example filterNotes_accented :
  filterNotes [shopping; mkNote "n3" ECOLE "cours" None 1 1] ecole
  = [mkNote "n3" ECOLE "cours" None 1 1].
Proof. reflexivity. Qed.

Example handleSave_nbsp_title :
  handleSave "alice" None (nbsp +:+ nbsp) "body" None aliceDevice
  = (Return (Alert "Error" "Please enter a title"), aliceDevice).
Proof. reflexivity. Qed.

End MoreRuns.
